(** * Smart Predictive Ride Pooling manager: model and verified properties

    A shallow embedding of [src/spr-pool-manager.js].  The module keeps one
    JSON array of pool records under a single [localStorage] key; every API
    function reads the whole array, mutates it in memory and writes it back.
    The storage entry is modelled as an optional list of records (absent key
    or parsed array), the API functions as state-passing functions that
    return the result object together with the new storage entry. *)

From stdpp Require Import base decidable option list numbers strings pretty gmap.

Local Open Scope string_scope.
Local Open Scope list_scope.
Local Open Scope nat_scope.

(** ** Data model *)

(** The three status strings the module ever writes. *)
Inductive Status : Set := PENDING | ACCEPTED | CONFIRMED.

Global Instance Status_eq_dec : EqDecision Status.
Proof. solve_decision. Defined.

(** A passenger entry, [{ userId, name }]. *)
Record User : Set := mkUser { userId : string; name : string }.

Global Instance User_eq_dec : EqDecision User.
Proof. solve_decision. Defined.

(** A pool record as it is serialised.  [null] fields are [None]; the
    predictive generator writes no [createdBy] field at all, which is
    [None] as well. *)
Record Pool : Set := mkPool {
  poolId : string;
  destination : string;
  pickupLocation : string;
  departureTime : string;
  capacity : nat;
  passengers : list User;
  pricePerHead : nat;
  status : Status;
  driverId : option string;
  driverName : option string;
  createdBy : option string
}.

Global Instance Pool_eq_dec : EqDecision Pool.
Proof. solve_decision. Defined.

(** Field assignments [pool.f = v]. *)
Definition set_passengers (v : list User) (p : Pool) : Pool :=
  mkPool (poolId p) (destination p) (pickupLocation p) (departureTime p)
         (capacity p) v (pricePerHead p) (status p) (driverId p)
         (driverName p) (createdBy p).

Definition set_status (v : Status) (p : Pool) : Pool :=
  mkPool (poolId p) (destination p) (pickupLocation p) (departureTime p)
         (capacity p) (passengers p) (pricePerHead p) v (driverId p)
         (driverName p) (createdBy p).

Definition set_driverId (v : option string) (p : Pool) : Pool :=
  mkPool (poolId p) (destination p) (pickupLocation p) (departureTime p)
         (capacity p) (passengers p) (pricePerHead p) (status p) v
         (driverName p) (createdBy p).

Definition set_driverName (v : option string) (p : Pool) : Pool :=
  mkPool (poolId p) (destination p) (pickupLocation p) (departureTime p)
         (capacity p) (passengers p) (pricePerHead p) (status p) (driverId p)
         v (createdBy p).

(** The object every API function returns. *)
Record Result : Set := mkResult { success : bool; message : string }.

(** The argument of [createPool]. *)
Record PoolData : Set := mkPoolData {
  pd_destination : string;
  pd_pickupLocation : string;
  pd_departureTime : string
}.

(** What the module reads from a [Date] object: [getMonth()] (zero based)
    and [getDate()]. *)
Record Date : Set := mkDate { getMonth : nat; getDate : nat }.

(** JavaScript truthiness of a nullable string ([if (pool.driverId)]):
    [null] and the empty string are falsy. *)
Definition truthy (o : option string) : bool :=
  match o with
  | None => false
  | Some s => bool_decide (s ≠ "")
  end.

(** ** Simulated users *)

Definition currentUser : User := mkUser "student123" "Priya S.".

Definition currentDriver_driverId : string := "driver007".
Definition currentDriver_name : string := "Suresh K.".

(** ** Predictive calendar *)

(** The template literal [`${d.getMonth() + 1}-${d.getDate()}`]. *)
Definition dateKey (d : Date) : string :=
  pretty (getMonth d + 1) +:+ "-" +:+ pretty (getDate d).

(** [highDemandEvents] is built once, when the module is evaluated, with a
    single key: the date of that moment ([loaded]). *)
Definition highDemandEvents (loaded : Date) : gmap string string :=
  {[ dateKey loaded := "Holiday Rush" ]}.

(** ** Storage *)

(** The value under [STORAGE_KEY]: absent, or the parsed array. *)
Definition Storage : Type := option (list Pool).

Definition getPoolsFromStorage (st : Storage) : list Pool :=
  match st with
  | Some pools => pools
  | None => []
  end.

Definition savePoolsToStorage (pools : list Pool) : Storage := Some pools.

Definition clearAllPools (st : Storage) : Storage := None.

(** ** API functions *)

Definition predictiveDestination : string := "Tirupati Railway Station".

(** The record pushed by the predictive generator; [departure] is the ISO
    string of 18:00 local time today and [now] the reading of
    [Date.now()]. *)
Definition predictivePool (departure : string) (now : N) : Pool :=
  {| poolId := "pool-" +:+ pretty now;
     destination := predictiveDestination;
     pickupLocation := "MBU Campus";
     departureTime := departure;
     capacity := 4;
     passengers := [];
     pricePerHead := 50;
     status := PENDING;
     driverId := None;
     driverName := None;
     createdBy := None |}.

Definition generatePredictivePools
    (loaded today : Date) (departure : string) (now : N) (st : Storage)
    : Storage :=
  let pools := getPoolsFromStorage st in
  let todayKey := dateKey today in
  if truthy (highDemandEvents loaded !! todayKey) then
    let destination' := predictiveDestination in
    let poolExists :=
      bool_decide (Exists (λ p, destination p = destination'
                                ∧ status p = PENDING) pools) in
    if negb poolExists then
      savePoolsToStorage (pools ++ [predictivePool departure now])
    else st
  else st.

Definition createPool (poolData : PoolData) (now : N) (st : Storage)
    : Result * Storage :=
  let pools := getPoolsFromStorage st in
  let newPool :=
    {| poolId := "pool-" +:+ pretty now;
       destination := pd_destination poolData;
       pickupLocation := pd_pickupLocation poolData;
       departureTime := pd_departureTime poolData;
       capacity := 4;
       passengers := [];
       pricePerHead := 50;
       status := PENDING;
       driverId := None;
       driverName := None;
       createdBy := Some (userId currentUser) |} in
  (mkResult true "Pool created", savePoolsToStorage (pools ++ [newPool])).

Definition msgNotFound : string := "Pool not found!".
Definition msgFull : string := "Sorry, this pool is already full.".
Definition msgAlreadyJoined : string := "You have already joined this pool.".
Definition msgNotAMember : string := "You are not in this pool.".
Definition msgAlreadyAccepted : string := "This pool has already been accepted.".

(** [p => p.userId === currentUser.userId] *)
Definition isCurrentUser (p : User) : Prop := userId p = userId currentUser.

Global Instance isCurrentUser_dec p : Decision (isCurrentUser p).
Proof. unfold isCurrentUser. apply _. Defined.

Definition joinPool (pid : string) (st : Storage) : Result * Storage :=
  let pools := getPoolsFromStorage st in
  match list_find (λ p, poolId p = pid) pools with
  | None => (mkResult false msgNotFound, st)
  | Some (i, pool) =>
    if bool_decide (capacity pool ≤ length (passengers pool)) then
      (mkResult false msgFull, st)
    else if bool_decide (Exists isCurrentUser (passengers pool)) then
      (mkResult false msgAlreadyJoined, st)
    else
      let pool := set_passengers (passengers pool ++ [currentUser]) pool in
      let notificationMessage := "Joined the pool!" in
      let '(pool, notificationMessage) :=
        if bool_decide (length (passengers pool) = capacity pool)
           && truthy (driverId pool)
        then (set_status CONFIRMED pool,
              "Pool to " +:+ destination pool
                +:+ " is now full and confirmed! Your ride is scheduled.")
        else (pool, notificationMessage) in
      (mkResult true notificationMessage,
       savePoolsToStorage (<[i := pool]> pools))
  end.

Definition exitPool (pid : string) (st : Storage) : Result * Storage :=
  let pools := getPoolsFromStorage st in
  match list_find (λ p, poolId p = pid) pools with
  | None => (mkResult false msgNotFound, st)
  | Some (poolIndex, pool) =>
    match list_find isCurrentUser (passengers pool) with
    | None => (mkResult false msgNotAMember, st)
    | Some (passengerIndex, _) =>
      let pool :=
        set_passengers (delete passengerIndex (passengers pool)) pool in
      if bool_decide (length (passengers pool) = 0) then
        (mkResult true "Pool exited.",
         savePoolsToStorage (delete poolIndex pools))
      else
        let pool :=
          if bool_decide (status pool = CONFIRMED)
          then set_status ACCEPTED pool else pool in
        (mkResult true "Pool exited.",
         savePoolsToStorage (<[poolIndex := pool]> pools))
    end
  end.

Definition assignDriver (pid : string) (st : Storage) : Result * Storage :=
  let pools := getPoolsFromStorage st in
  match list_find (λ p, poolId p = pid) pools with
  | None => (mkResult false msgNotFound, st)
  | Some (i, pool) =>
    if truthy (driverId pool) then (mkResult false msgAlreadyAccepted, st)
    else
      let pool := set_driverId (Some currentDriver_driverId) pool in
      let pool := set_driverName (Some currentDriver_name) pool in
      let pool := set_status ACCEPTED pool in
      let notificationMessage :=
        "You have accepted the pool to " +:+ destination pool
          +:+ ". You will be notified when it's full." in
      let '(pool, notificationMessage) :=
        if bool_decide (length (passengers pool) = capacity pool)
        then (set_status CONFIRMED pool,
              "Pool to " +:+ destination pool
                +:+ " is now confirmed! The ride is ready.")
        else (pool, notificationMessage) in
      (mkResult true notificationMessage,
       savePoolsToStorage (<[i := pool]> pools))
  end.

(** ** Read-only queries *)

Definition getAvailablePoolsForStudent (st : Storage) : list Pool :=
  filter (λ p, status p ∈ [PENDING; ACCEPTED]) (getPoolsFromStorage st).

Definition getAvailablePoolsForDriver (st : Storage) : list Pool :=
  filter (λ p, status p = PENDING ∧ truthy (driverId p) = false)
         (getPoolsFromStorage st).

Definition hasCurrentUser (p : Pool) : Prop :=
  Exists isCurrentUser (passengers p).

Global Instance hasCurrentUser_dec p : Decision (hasCurrentUser p).
Proof. unfold hasCurrentUser. apply _. Defined.

Definition getMyJoinedPool (st : Storage) : option Pool :=
  snd <$> list_find hasCurrentUser (getPoolsFromStorage st).

(** ** Reachable states *)

(** One call of the public interface, with the clock readings and
    arguments it consumes.  [init] is [generatePredictivePools]; the module
    may have been evaluated (page load) on any date. *)
Inductive Op : Set :=
  | OpGenerate (loaded today : Date) (departure : string) (now : N)
  | OpCreate (poolData : PoolData) (now : N)
  | OpJoin (pid : string)
  | OpExit (pid : string)
  | OpAssign (pid : string).

Definition exec (op : Op) (st : Storage) : Storage :=
  match op with
  | OpGenerate loaded today departure now =>
      generatePredictivePools loaded today departure now st
  | OpCreate poolData now => (createPool poolData now st).2
  | OpJoin pid => (joinPool pid st).2
  | OpExit pid => (exitPool pid st).2
  | OpAssign pid => (assignDriver pid st).2
  end.

(** States reachable from [from] by a finite sequence of calls. *)
Inductive reachable_from (from : Storage) : Storage → Prop :=
  | reach_refl : reachable_from from from
  | reach_step st op :
      reachable_from from st → reachable_from from (exec op st).

(** The empty collection: nothing stored under the key yet. *)
Definition reachable : Storage → Prop := reachable_from None.

(** ** Pool life cycle and data-model invariants *)

(** The record [createPool] pushes. *)
Definition createdPool (poolData : PoolData) (now : N) : Pool :=
  {| poolId := "pool-" +:+ pretty now;
     destination := pd_destination poolData;
     pickupLocation := pd_pickupLocation poolData;
     departureTime := pd_departureTime poolData;
     capacity := 4;
     passengers := [];
     pricePerHead := 50;
     status := PENDING;
     driverId := None;
     driverName := None;
     createdBy := Some (userId currentUser) |}.

(** The record a successful [joinPool] writes back in place of [p]. *)
Definition joinedPool (p : Pool) : Pool :=
  let q := set_passengers (passengers p ++ [currentUser]) p in
  if bool_decide (length (passengers q) = capacity q) && truthy (driverId q)
  then set_status CONFIRMED q else q.

(** The record a successful [exitPool] writes back in place of [p] when
    passengers remain; [i] is the index of the leaving passenger. *)
Definition exitedPool (i : nat) (p : Pool) : Pool :=
  let q := set_passengers (delete i (passengers p)) p in
  if bool_decide (status q = CONFIRMED) then set_status ACCEPTED q else q.

(** The record a successful [assignDriver] writes back in place of [p]. *)
Definition acceptedPool (p : Pool) : Pool :=
  let q := set_status ACCEPTED
             (set_driverName (Some currentDriver_name)
                (set_driverId (Some currentDriver_driverId) p)) in
  if bool_decide (length (passengers q) = capacity q)
  then set_status CONFIRMED q else q.

(** A record is fresh when one of the two constructors of the module
    built it. *)
Inductive fresh_pool : Pool → Prop :=
  | fresh_predictive departure now :
      fresh_pool (predictivePool departure now)
  | fresh_created poolData now :
      fresh_pool (createdPool poolData now).

(** What a successful call does to the record it targets and keeps. *)
Inductive pool_step (p : Pool) : Pool → Prop :=
  | step_join :
      length (passengers p) < capacity p →
      ¬ Exists isCurrentUser (passengers p) →
      pool_step p (joinedPool p)
  | step_exit i u :
      list_find isCurrentUser (passengers p) = Some (i, u) →
      delete i (passengers p) ≠ [] →
      pool_step p (exitedPool i p)
  | step_assign :
      truthy (driverId p) = false →
      pool_step p (acceptedPool p).

(** The invariants of the data model, for one record. *)
Record pool_ok (p : Pool) : Prop := mk_pool_ok {
  ok_capacity : capacity p = 4;
  ok_size : length (passengers p) ≤ capacity p;
  ok_nodup : NoDup (userId <$> passengers p);
  ok_driver : driverId p ≠ Some "";
  ok_confirmed :
    status p = CONFIRMED ↔
    driverId p ≠ None ∧ length (passengers p) = capacity p;
  ok_pending : status p = PENDING ↔ driverId p = None
}.

Definition state_ok (st : Storage) : Prop :=
  Forall pool_ok (getPoolsFromStorage st).

(** Only the simulated student ever joins. *)
Definition pool_solo (p : Pool) : Prop :=
  Forall (λ u, u = currentUser) (passengers p).

(** [p => p.destination === destination && p.status === 'PENDING'] *)
Definition pendingToStation (p : Pool) : Prop :=
  destination p = predictiveDestination ∧ status p = PENDING.

(** The expectation behind the first-match lookup: the current user is a
    passenger of at most one stored pool. *)
Definition joined_at_most_one (st : Storage) : Prop :=
  ∀ i j p q,
    getPoolsFromStorage st !! i = Some p →
    getPoolsFromStorage st !! j = Some q →
    hasCurrentUser p → hasCurrentUser q → i = j.

(** Pool ids come from the clock and may collide; the lookups by poolId
    only ever reach the first pool with a given id, so a later pool with
    the same id is still as it was created. *)
Definition later_twins_untouched (l : list Pool) : Prop :=
  ∀ i j p q,
    i < j → l !! i = Some p → l !! j = Some q → poolId p = poolId q →
    passengers q = [].

(** [init: () => { generatePredictivePools(); }] *)
Definition init (loaded today : Date) (departure : string) (now : N)
    (st : Storage) : Storage :=
  generatePredictivePools loaded today departure now st.

(** [getCurrentUser: () => currentUser] *)
Definition getCurrentUser : User := currentUser.

(** A pool the generator made (it alone writes no [createdBy]) that no
    driver has taken yet. *)
Definition pendingPredictive (p : Pool) : Prop :=
  createdBy p = None ∧ status p = PENDING.

(** The fields no call ever changes after creation, and the pairing of the
    two driver fields. *)
Definition pool_fields (p : Pool) : Prop :=
  pricePerHead p = 50
  ∧ (createdBy p = None → destination p = predictiveDestination)
  ∧ (driverId p = None ∧ driverName p = None
     ∨ driverId p = Some currentDriver_driverId
       ∧ driverName p = Some currentDriver_name).

(** Strings without the separator of [dateKey]. *)
Fixpoint no_dash (s : string) : Prop :=
  match s with
  | EmptyString => True
  | String c s' => String c "" ≠ "-" ∧ no_dash s'
  end.

(** ** Sample states *)

Definition tripData : PoolData :=
  mkPoolData "Airport" "MBU Campus" "2025-01-01T10:00".

(** createPool at time 5, then joinPool on the new pool. *)
Definition st_created : Storage := exec (OpCreate tripData 5) None.
Definition st_joined : Storage := exec (OpJoin "pool-5") st_created.

Definition pool5_created : Pool := createdPool tripData 5.
Definition pool5_joined : Pool := joinedPool pool5_created.

(** Two pools created, both joined. *)
Definition st_two_joined : Storage :=
  exec (OpJoin "pool-6")
    (exec (OpJoin "pool-5")
       (exec (OpCreate tripData 6) (exec (OpCreate tripData 5) None))).

(** A stored collection with one full pool, with and without a driver. *)
Definition fourRiders : list User :=
  [mkUser "student001" "A"; mkUser "student002" "B";
   mkUser "student003" "C"; currentUser].

Definition pool_full_confirmed : Pool :=
  mkPool "pool-9" "Airport" "MBU Campus" "2025-01-01T10:00" 4 fourRiders 50
         CONFIRMED (Some "driver007") (Some "Suresh K.") (Some "student001").

Definition pool_full_pending : Pool :=
  mkPool "pool-9" "Airport" "MBU Campus" "2025-01-01T10:00" 4 fourRiders 50
         PENDING None None (Some "student001").

(** A stored collection with one pool that lacks one passenger. *)
Definition threeRiders : list User :=
  [mkUser "student001" "A"; mkUser "student002" "B";
   mkUser "student003" "C"].

Definition pool_three_accepted : Pool :=
  mkPool "pool-9" "Airport" "MBU Campus" "2025-01-01T10:00" 4 threeRiders 50
         ACCEPTED (Some "driver007") (Some "Suresh K.") (Some "student001").

(** The generator run on the load day, from the empty collection. *)
Definition st_generated : Storage :=
  exec (OpGenerate (mkDate 10 2) (mkDate 10 2) "2025-11-02T12:30:00.000Z" 7)
       None.

(** ** What the successful calls store *)

Lemma createPool_stores poolData now st :
  createPool poolData now st
  = (mkResult true "Pool created",
     Some (getPoolsFromStorage st ++ [createdPool poolData now])).
Proof. reflexivity. Qed.

Lemma joinPool_stores st pid i p :
  list_find (λ q, poolId q = pid) (getPoolsFromStorage st) = Some (i, p) →
  length (passengers p) < capacity p →
  ¬ Exists isCurrentUser (passengers p) →
  success (joinPool pid st).1 = true
  ∧ (joinPool pid st).2 = Some (<[i := joinedPool p]> (getPoolsFromStorage st)).
Proof.
  intros Hfind Hlt Hno. unfold joinPool, joinedPool. rewrite Hfind.
  rewrite bool_decide_eq_false_2 by lia. rewrite bool_decide_eq_false_2 by done.
  by destruct (_ && _).
Qed.

Lemma exitPool_stores st pid i p j u :
  list_find (λ q, poolId q = pid) (getPoolsFromStorage st) = Some (i, p) →
  list_find isCurrentUser (passengers p) = Some (j, u) →
  delete j (passengers p) ≠ [] →
  exitPool pid st
  = (mkResult true "Pool exited.",
     Some (<[i := exitedPool j p]> (getPoolsFromStorage st))).
Proof.
  intros Hfind Hu Hne. unfold exitPool, exitedPool. rewrite Hfind, Hu. simpl.
  rewrite bool_decide_eq_false_2.
  - by case_bool_decide.
  - by intros ?%length_zero_iff_nil.
Qed.

Lemma assignDriver_stores st pid i p :
  list_find (λ q, poolId q = pid) (getPoolsFromStorage st) = Some (i, p) →
  truthy (driverId p) = false →
  success (assignDriver pid st).1 = true
  ∧ (assignDriver pid st).2
    = Some (<[i := acceptedPool p]> (getPoolsFromStorage st)).
Proof.
  intros Hfind Hd. unfold assignDriver, acceptedPool. rewrite Hfind, Hd. simpl.
  by case_bool_decide.
Qed.

(** ** Stepping lemmas *)

Section Poolwise.
Variable P : Pool → Prop.
Hypothesis P_fresh : ∀ p, fresh_pool p → P p.
Hypothesis P_step : ∀ p q, P p → pool_step p q → P q.

Lemma exec_poolwise op st :
  Forall P (getPoolsFromStorage st) →
  Forall P (getPoolsFromStorage (exec op st)).
Proof.
  intros HP. destruct op as [loaded today dep now|pd now|pid|pid|pid]; simpl.
  - unfold generatePredictivePools.
    destruct (truthy _); [|done]. case_bool_decide; simpl; [done|].
    apply Forall_app; split; [done|]. repeat constructor. apply P_fresh. constructor.
  - apply Forall_app; split; [done|]. repeat constructor.
    apply P_fresh, (fresh_created pd now).
  - unfold joinPool.
    destruct (list_find _ _) as [[i p]|] eqn:Hf; [|done].
    apply list_find_Some in Hf as (Hi & _ & _).
    case_bool_decide; [done|]. case_bool_decide; [done|].
    assert (P (joinedPool p)) as HQ.
    { apply (P_step p); [by eapply Forall_lookup_1|]. constructor; [lia|done]. }
    unfold joinedPool in HQ. destruct (_ && _); simpl in *; by apply Forall_insert.
  - unfold exitPool.
    destruct (list_find _ _) as [[i p]|] eqn:Hf; [|done].
    apply list_find_Some in Hf as (Hi & _ & _).
    destruct (list_find isCurrentUser _) as [[j u]|] eqn:Hu; [|done].
    simpl. case_bool_decide as Hlen; simpl; [by apply Forall_delete|].
    assert (P (exitedPool j p)) as HQ.
    { apply (P_step p); [by eapply Forall_lookup_1|]. econstructor; [done|].
      intros Hnil. apply Hlen. by rewrite Hnil. }
    unfold exitedPool in HQ. simpl in HQ.
    case_bool_decide; by apply Forall_insert.
  - unfold assignDriver.
    destruct (list_find _ _) as [[i p]|] eqn:Hf; [|done].
    apply list_find_Some in Hf as (Hi & _ & _).
    destruct (truthy (driverId p)) eqn:Hd; [done|].
    assert (P (acceptedPool p)) as HQ.
    { apply (P_step p); [by eapply Forall_lookup_1|]. by constructor. }
    unfold acceptedPool in HQ. simpl in *.
    case_bool_decide; by apply Forall_insert.
Qed.

Lemma reachable_from_poolwise from st :
  Forall P (getPoolsFromStorage from) →
  reachable_from from st →
  Forall P (getPoolsFromStorage st).
Proof. intros H0 Hr. induction Hr; [done|]. by apply exec_poolwise. Qed.
End Poolwise.

(** ** The data-model invariants are inductive *)

Lemma truthy_Some_ne (o : option string) :
  o ≠ Some "" → (truthy o = true ↔ o ≠ None).
Proof.
  intros Hne. destruct o as [s|]; simpl; [|by split].
  rewrite bool_decide_eq_true. split; [done|]. intros _ ->. by apply Hne.
Qed.

Lemma truthy_false_None (o : option string) :
  o ≠ Some "" → truthy o = false → o = None.
Proof.
  intros Hne Hf. destruct o as [s|]; [|done]. simpl in Hf.
  apply bool_decide_eq_false in Hf. destruct Hf. intros ->. by apply Hne.
Qed.

Lemma not_current_user_fresh (l : list User) :
  ¬ Exists isCurrentUser l → userId currentUser ∉ userId <$> l.
Proof.
  intros Hno (u & Hu & Hin)%list_elem_of_fmap. apply Hno, Exists_exists.
  exists u. by split.
Qed.

(** Closes the propositional side goals about status and driver. *)
Ltac pool_facts := intuition (try congruence; try lia).

Lemma pool_ok_fresh p : fresh_pool p → pool_ok p.
Proof.
  intros [dep now|pd now]; split; simpl; try done; try lia;
    try apply NoDup_nil_2; split; (done || intros []; done).
Qed.

Lemma pool_ok_step p q : pool_ok p → pool_step p q → pool_ok q.
Proof.
  intros [Hcap Hsz Hnd Hdr Hconf Hpend] [Hlt Hno|i u Hfind Hne|Hfalsy].
  - (* join *)
    unfold joinedPool. simpl. rewrite length_app. simpl.
    assert (NoDup (userId <$> passengers p ++ [currentUser])) as Hnd'.
    { rewrite fmap_app. apply NoDup_app. split_and!; [done| |apply NoDup_singleton].
      intros x Hx ->%list_elem_of_singleton. by apply not_current_user_fresh in Hno. }
    assert (status p ≠ CONFIRMED) as Hnc by (rewrite Hconf; lia).
    destruct (bool_decide _ && truthy _) eqn:Hb.
    + apply andb_true_iff in Hb as [Hfull%bool_decide_eq_true Htr].
      apply truthy_Some_ne in Htr; [|done].
      split; simpl; rewrite ?length_app; simpl; try done; try lia; pool_facts.
    + apply andb_false_iff in Hb.
      split; simpl; rewrite ?length_app; simpl; try done; try lia.
      split; [done|]. intros [Hd Hfull]. exfalso.
      destruct Hb as [Hb%bool_decide_eq_false|Hb]; [done|].
      apply truthy_false_None in Hb; done.
  - (* exit *)
    apply list_find_Some in Hfind as (Hi & _ & _).
    assert (length (delete i (passengers p)) < capacity p) as Hlt.
    { rewrite length_delete by eauto. apply lookup_lt_Some in Hi. lia. }
    assert (NoDup (userId <$> delete i (passengers p))) as Hnd'.
    { rewrite list_fmap_delete. eapply sublist_NoDup; [done|apply sublist_delete]. }
    unfold exitedPool. simpl. case_bool_decide as Hc.
    + split; simpl; try done; try lia.
      * split; [done|]. lia.
      * split; [done|]. intros Hd. apply Hconf in Hc. by destruct Hc.
    + split; simpl; try done; try lia.
      split; [done|]. lia.
  - (* assign *)
    apply truthy_false_None in Hfalsy; [|done].
    unfold acceptedPool. simpl. case_bool_decide as Hfull.
    + split; simpl; try done; try lia; pool_facts.
    + split; simpl; try done; try lia; pool_facts.
Qed.

Lemma exec_ok op st : state_ok st → state_ok (exec op st).
Proof. apply exec_poolwise; [apply pool_ok_fresh|apply pool_ok_step]. Qed.

Lemma reachable_from_ok from st :
  state_ok from → reachable_from from st → state_ok st.
Proof.
  apply reachable_from_poolwise; [apply pool_ok_fresh|apply pool_ok_step].
Qed.

Lemma reachable_ok st : reachable st → state_ok st.
Proof. apply reachable_from_ok. constructor. Qed.

Lemma pool_solo_fresh p : fresh_pool p → pool_solo p.
Proof. intros [dep now|pd now]; constructor. Qed.

Lemma pool_solo_step p q : pool_solo p → pool_step p q → pool_solo q.
Proof.
  unfold pool_solo. intros Hp [Hlt Hno|i u Hfind Hne|Hfalsy].
  - unfold joinedPool. destruct (_ && _); simpl;
      (apply Forall_app; split; [done|by repeat constructor]).
  - unfold exitedPool. case_bool_decide; simpl; by apply Forall_delete.
  - unfold acceptedPool. by case_bool_decide.
Qed.

Lemma reachable_solo st :
  reachable st → Forall pool_solo (getPoolsFromStorage st).
Proof.
  apply reachable_from_poolwise;
    [apply pool_solo_fresh|apply pool_solo_step|constructor].
Qed.

(** With a single simulated student, a reachable pool never holds more
    than one passenger, hence is never full and never CONFIRMED. *)
Lemma reachable_at_most_one st p :
  reachable st → p ∈ getPoolsFromStorage st →
  length (passengers p) ≤ 1 ∧ status p ≠ CONFIRMED.
Proof.
  intros Hr Hin.
  pose proof (reachable_ok _ Hr) as Hok. pose proof (reachable_solo _ Hr) as Hs.
  unfold state_ok in Hok. rewrite Forall_forall in Hok, Hs.
  destruct (Hok _ Hin) as [Hcap Hsz Hnd Hdr Hconf Hpend]. specialize (Hs _ Hin).
  assert (length (passengers p) ≤ 1) as Hle.
  { unfold pool_solo in Hs. destruct (passengers p) as [|u [|v l]]; simpl; try lia.
    exfalso. apply Forall_cons in Hs as [-> Hs]. apply Forall_cons in Hs as [-> _].
    simpl in Hnd. apply NoDup_cons in Hnd as [Hnd _]. apply Hnd. left. }
  split; [done|]. rewrite Hconf. lia.
Qed.

(** ** Pools sharing a poolId *)

Lemma twins_push l p :
  later_twins_untouched l → passengers p = [] →
  later_twins_untouched (l ++ [p]).
Proof.
  intros Hl Hp i j a b Hij Ha Hb Hid.
  apply lookup_app_Some in Hb as [Hb|[Hlen Hb]].
  - apply lookup_lt_Some in Hb as Hj.
    assert (i < length l) as Hi by lia.
    rewrite (lookup_app_l l [p] i Hi) in Ha. by apply (Hl i j a b).
  - apply list_lookup_singleton_Some in Hb as [_ <-]. done.
Qed.

Lemma twins_update l pid k p p' :
  later_twins_untouched l →
  list_find (λ q, poolId q = pid) l = Some (k, p) →
  poolId p' = poolId p →
  later_twins_untouched (<[k := p']> l).
Proof.
  intros Hl (Hk & Hpid & Hleast)%list_find_Some Hsame i j a b Hij Ha Hb Hid.
  apply list_lookup_insert_Some in Ha as [(-> & <- & _)|[Hik Ha]];
    apply list_lookup_insert_Some in Hb as [(<- & <- & _)|[Hjk Hb]].
  - lia.
  - eapply (Hl i j p b); [done..|congruence].
  - destruct (Hleast i a Ha Hij). congruence.
  - by apply (Hl i j a b).
Qed.

Lemma twins_delete l k :
  later_twins_untouched l → later_twins_untouched (delete k l).
Proof.
  intros Hl i j a b Hij Ha Hb Hid.
  rewrite list_lookup_delete in Ha, Hb.
  destruct (decide (i < k)), (decide (j < k)); try lia;
    (eapply (Hl _ _ a b); [|exact Ha|exact Hb|exact Hid]); lia.
Qed.

Lemma exec_twins op st :
  later_twins_untouched (getPoolsFromStorage st) →
  later_twins_untouched (getPoolsFromStorage (exec op st)).
Proof.
  intros Hl. destruct op as [loaded today dep now|pd now|pid|pid|pid]; simpl.
  - unfold generatePredictivePools.
    destruct (truthy _); [|done]. case_bool_decide; simpl; [done|].
    by apply twins_push.
  - by apply twins_push.
  - unfold joinPool.
    destruct (list_find _ _) as [[i p]|] eqn:Hf; [|done].
    case_bool_decide; [done|]. case_bool_decide; [done|].
    destruct (_ && _); simpl; by eapply twins_update.
  - unfold exitPool.
    destruct (list_find _ _) as [[i p]|] eqn:Hf; [|done].
    destruct (list_find isCurrentUser _) as [[j u]|]; [|done].
    simpl. case_bool_decide; simpl; [by apply twins_delete|].
    case_bool_decide; by eapply twins_update.
  - unfold assignDriver.
    destruct (list_find _ _) as [[i p]|] eqn:Hf; [|done].
    destruct (truthy (driverId p)); [done|].
    simpl. case_bool_decide; by eapply twins_update.
Qed.

Lemma reachable_twins st :
  reachable st → later_twins_untouched (getPoolsFromStorage st).
Proof.
  intros Hr. induction Hr as [|st op Hr IH]; [|by apply exec_twins].
  intros i j p q _ Hp. simpl in Hp. by rewrite lookup_nil in Hp.
Qed.

(** In a reachable state, a stored pool that has a passenger is the pool
    its own poolId identifies. *)
Lemma reachable_joined_is_found st p :
  reachable st → p ∈ getPoolsFromStorage st → passengers p ≠ [] →
  ∃ i, list_find (λ q, poolId q = poolId p) (getPoolsFromStorage st)
       = Some (i, p).
Proof.
  intros Hr Hin Hne. apply reachable_twins in Hr.
  pose proof Hin as [j Hj]%list_elem_of_lookup.
  destruct (list_find_elem_of (λ q, poolId q = poolId p) _ p Hin eq_refl)
    as [[i q] Hf].
  exists i. rewrite Hf. do 2 f_equal.
  pose proof Hf as (Hi & Hid & Hleast)%list_find_Some.
  destruct (decide (i = j)) as [->|Hij]; [congruence|].
  destruct (decide (j < i)) as [Hlt|Hge]; [by destruct (Hleast j p Hj Hlt)|].
  destruct Hne. eapply (Hr i j q p); [lia|done..].
Qed.

(** ** Invariants of reachable states *)

(** C1.  In every state reachable from the empty collection through
    createPool, generatePredictivePools, joinPool, exitPool and
    assignDriver, a pool is CONFIRMED exactly when its driverId is non-null
    and its passenger list has as many entries as its capacity. *)
Theorem confirmed_iff_driver_and_full st p :
  reachable st →
  p ∈ getPoolsFromStorage st →
  (status p = CONFIRMED ↔
   driverId p ≠ None ∧ length (passengers p) = capacity p).
Proof.
  intros Hr Hin. apply reachable_ok in Hr. unfold state_ok in Hr.
  rewrite Forall_forall in Hr. by destruct (Hr p Hin).
Qed.

(** C2.  After every operation run from a reachable state, every stored
    pool has at most [capacity] passengers. *)
Theorem passengers_within_capacity st op p :
  reachable st →
  p ∈ getPoolsFromStorage (exec op st) →
  length (passengers p) ≤ capacity p.
Proof.
  intros Hr Hin. apply reachable_ok, (exec_ok op) in Hr. unfold state_ok in Hr.
  rewrite Forall_forall in Hr. by destruct (Hr p Hin).
Qed.

(** C10.  In every reachable state a PENDING pool has a null driverId, a
    pool with a driverId is ACCEPTED or CONFIRMED, and therefore the
    driver-visible query returns exactly the PENDING pools: its driverless
    test never removes one. *)
Theorem pending_has_no_driver st :
  reachable st →
  (∀ p, p ∈ getPoolsFromStorage st →
        (status p = PENDING → driverId p = None) ∧
        (driverId p ≠ None → status p = ACCEPTED ∨ status p = CONFIRMED)) ∧
  getAvailablePoolsForDriver st
  = filter (λ p, status p = PENDING) (getPoolsFromStorage st).
Proof.
  intros Hr. apply reachable_ok in Hr. unfold state_ok in Hr.
  rewrite Forall_forall in Hr.
  assert (∀ p, p ∈ getPoolsFromStorage st →
               status p = PENDING → driverId p = None) as Hpend.
  { intros p Hin. destruct (Hr p Hin) as [_ _ _ _ _ Hp]. apply Hp. }
  split.
  - intros p Hin. split; [by apply Hpend|].
    intros Hd. destruct (status p) eqn:Hs; [|by left|by right].
    destruct Hd. apply Hpend; [done|]. by rewrite Hs.
  - unfold getAvailablePoolsForDriver.
    induction (getPoolsFromStorage st) as [|q l IH]; [done|].
    rewrite !filter_cons.
    rewrite IH.
    2:{ intros p Hp. apply Hr. by right. }
    2:{ intros p Hp. apply Hpend. by right. }
    destruct (decide (status q = PENDING)) as [Hs|Hs].
    + rewrite decide_True; [done|]. split; [done|].
      rewrite (Hpend q); [done|by left|done].
    + rewrite decide_False; [done|]. by intros [? _].
Qed.

(** ** The predictive generator *)

Lemma high_demand_today day : truthy (highDemandEvents day !! dateKey day) = true.
Proof. unfold highDemandEvents. by rewrite lookup_singleton_eq. Qed.

Lemma generate_adds loaded today departure now st :
  truthy (highDemandEvents loaded !! dateKey today) = true →
  ¬ Exists pendingToStation (getPoolsFromStorage st) →
  generatePredictivePools loaded today departure now st
  = Some (getPoolsFromStorage st ++ [predictivePool departure now]).
Proof.
  intros Hday Hno. unfold generatePredictivePools. rewrite Hday.
  by rewrite bool_decide_eq_false_2.
Qed.

Lemma generate_keeps loaded today departure now st :
  Exists pendingToStation (getPoolsFromStorage st) →
  generatePredictivePools loaded today departure now st = st.
Proof.
  intros Hex. unfold generatePredictivePools.
  destruct (truthy _); [|done]. by rewrite bool_decide_eq_true_2.
Qed.

(** C3.  Two consecutive runs of the generator on the same day leave the
    storage exactly as one run does; when the day is the high-demand day
    and no PENDING pool to the station is stored, the two runs together
    append exactly one pool, the one of the first run; from the empty
    collection the result is that single Holiday Rush pool. *)
Theorem generatePredictivePools_twice loaded today d1 n1 d2 n2 st :
  generatePredictivePools loaded today d2 n2
    (generatePredictivePools loaded today d1 n1 st)
  = generatePredictivePools loaded today d1 n1 st
  ∧ (today = loaded →
     ¬ Exists pendingToStation (getPoolsFromStorage st) →
     generatePredictivePools loaded today d2 n2
       (generatePredictivePools loaded today d1 n1 st)
     = Some (getPoolsFromStorage st ++ [predictivePool d1 n1]))
  ∧ generatePredictivePools today today d2 n2
      (generatePredictivePools today today d1 n1 None)
    = Some [predictivePool d1 n1].
Proof.
  assert (∀ l, Exists pendingToStation (l ++ [predictivePool d1 n1])) as Hex.
  { intros l. apply Exists_app. right. by repeat constructor. }
  split_and!.
  - destruct (truthy (highDemandEvents loaded !! dateKey today)) eqn:Hday.
    + destruct (decide (Exists pendingToStation (getPoolsFromStorage st))) as [He|He].
      * rewrite (generate_keeps _ _ d1 n1 st He). by apply generate_keeps.
      * rewrite (generate_adds _ _ d1 n1 st Hday He). apply generate_keeps, Hex.
    + unfold generatePredictivePools. by rewrite !Hday.
  - intros -> Hno. rewrite (generate_adds _ _ d1 n1 st (high_demand_today _) Hno).
    apply generate_keeps, Hex.
  - rewrite (generate_adds today today d1 n1 None (high_demand_today _));
      [|by intros ?%Exists_nil].
    apply generate_keeps, (Hex []).
Qed.

(** ** joinPool *)

(** C4.  When the pool that [poolId] identifies has its passenger list at
    capacity, joinPool fails with the Full message and the stored
    collection is left as it was. *)
Theorem joinPool_full st pid i p :
  list_find (λ q, poolId q = pid) (getPoolsFromStorage st) = Some (i, p) →
  length (passengers p) = capacity p →
  joinPool pid st = (mkResult false msgFull, st).
Proof.
  intros Hfind Hfull. unfold joinPool. rewrite Hfind.
  rewrite bool_decide_eq_true_2; [done|lia].
Qed.

Lemma once_in_nodup (l : list User) :
  NoDup (userId <$> l) → Exists isCurrentUser l →
  length (filter isCurrentUser l) = 1.
Proof.
  induction l as [|u l IH]; intros Hnd Hex; [by apply Exists_nil in Hex|].
  rewrite fmap_cons in Hnd. apply NoDup_cons in Hnd as [Hnotin Hnd].
  rewrite filter_cons. destruct (decide (isCurrentUser u)) as [Hu|Hu].
  - simpl. f_equal. destruct (filter isCurrentUser l) as [|v k] eqn:Hf; [done|].
    assert (v ∈ filter isCurrentUser l) as [Hcur Hv]%list_elem_of_filter
      by (rewrite Hf; left).
    destruct Hnotin. apply list_elem_of_fmap. exists v.
    split; [|done]. unfold isCurrentUser in *. congruence.
  - apply IH; [done|]. apply Exists_cons in Hex as [?|?]; done.
Qed.

(** C5.  When the current user is already a passenger of the pool that
    [poolId] identifies and the pool is not at capacity, joinPool fails
    with the AlreadyJoined message and stores nothing: the pool is found
    afterwards as it was, and its passenger list (free of duplicate
    userIds, as the data model has it) holds the current user's userId
    exactly once. *)
Theorem joinPool_already_joined st pid i p :
  list_find (λ q, poolId q = pid) (getPoolsFromStorage st) = Some (i, p) →
  length (passengers p) < capacity p →
  Exists isCurrentUser (passengers p) →
  joinPool pid st = (mkResult false msgAlreadyJoined, st)
  ∧ list_find (λ q, poolId q = pid)
      (getPoolsFromStorage (joinPool pid st).2) = Some (i, p)
  ∧ (NoDup (userId <$> passengers p) →
     length (filter isCurrentUser (passengers p)) = 1).
Proof.
  intros Hfind Hlt Hex.
  assert (joinPool pid st = (mkResult false msgAlreadyJoined, st)) as Hj.
  { unfold joinPool. rewrite Hfind.
    rewrite bool_decide_eq_false_2 by lia. by rewrite bool_decide_eq_true_2. }
  split_and!; [done|by rewrite Hj|].
  intros Hnd. by apply once_in_nodup.
Qed.

(** ** exitPool *)

(** C6, as amended.  When the current user is the only passenger of the
    pool that [poolId] identifies, exitPool succeeds and the stored
    collection is the old one with that pool taken out; and no call of
    exitPool leaves behind a pool it has emptied: a stored pool without
    passengers was stored, as it is, before the call. *)
Theorem exitPool_last_passenger st pid i p u :
  list_find (λ q, poolId q = pid) (getPoolsFromStorage st) = Some (i, p) →
  passengers p = [u] →
  isCurrentUser u →
  exitPool pid st
  = (mkResult true "Pool exited.",
     Some (delete i (getPoolsFromStorage st)))
  ∧ length (getPoolsFromStorage (exitPool pid st).2)
    = length (getPoolsFromStorage st) - 1
  ∧ ∀ pid' q, q ∈ getPoolsFromStorage (exitPool pid' st).2 →
              passengers q = [] → q ∈ getPoolsFromStorage st.
Proof.
  intros Hfind Hone Hu.
  assert (exitPool pid st = (mkResult true "Pool exited.",
            Some (delete i (getPoolsFromStorage st)))) as He.
  { unfold exitPool. rewrite Hfind, Hone. simpl. by rewrite decide_True. }
  split_and!; [done| |].
  - rewrite He. simpl. apply length_delete.
    apply list_find_Some in Hfind as (Hi & _). eauto.
  - clear. intros pid q. unfold exitPool.
    destruct (list_find _ _) as [[i p]|]; [|done].
    destruct (list_find isCurrentUser _) as [[j u]|]; [|done].
    simpl. case_bool_decide as Hlen; simpl.
    + intros Hin _. by eapply list_elem_of_delete_inv.
    + intros Hin Hempty.
      apply list_elem_of_lookup in Hin as [k Hk].
      apply list_lookup_insert_Some in Hk as [(-> & Heq & _)|[_ Hk]].
      * exfalso. destruct (bool_decide (status p = CONFIRMED));
          subst q; simpl in Hempty; by rewrite Hempty in Hlen.
      * apply list_elem_of_lookup. eauto.
Qed.

(** C7.  When the pool that [poolId] identifies is CONFIRMED (so, by the
    data-model invariants, full with four passengers) and the current user
    is one of its passengers, exitPool succeeds, the pool stays in place
    under the same poolId with status ACCEPTED, and its driverId and
    driverName are the ones it had. *)
Theorem exitPool_confirmed st pid i p :
  pool_ok p →
  list_find (λ q, poolId q = pid) (getPoolsFromStorage st) = Some (i, p) →
  status p = CONFIRMED →
  Exists isCurrentUser (passengers p) →
  ∃ p',
    exitPool pid st
    = (mkResult true "Pool exited.",
       Some (<[i := p']> (getPoolsFromStorage st)))
    ∧ list_find (λ q, poolId q = pid)
        (getPoolsFromStorage (exitPool pid st).2) = Some (i, p')
    ∧ status p' = ACCEPTED
    ∧ driverId p' = driverId p ∧ driverId p' ≠ None
    ∧ driverName p' = driverName p
    ∧ length (passengers p') = length (passengers p) - 1.
Proof.
  intros [Hcap Hsz Hnd Hdr Hconf Hpend] Hfind Hst Hex.
  destruct (list_find isCurrentUser (passengers p)) as [[j u]|] eqn:Hu.
  2:{ apply list_find_None in Hu. apply Forall_not_Exists in Hu. done. }
  pose proof Hu as (Hj & _)%list_find_Some.
  assert (length (delete j (passengers p)) = length (passengers p) - 1) as Hlen
    by (apply length_delete; eauto).
  apply Hconf in Hst as Hfull. destruct Hfull as [Hdrv Hfull].
  exists (set_status ACCEPTED (set_passengers (delete j (passengers p)) p)).
  assert (exitPool pid st
          = (mkResult true "Pool exited.",
             Some (<[i := set_status ACCEPTED
                             (set_passengers (delete j (passengers p)) p)]>
                     (getPoolsFromStorage st)))) as He.
  { unfold exitPool. rewrite Hfind, Hu. simpl.
    rewrite bool_decide_eq_false_2 by lia. by rewrite bool_decide_eq_true_2. }
  split_and!; try done.
  rewrite He. simpl.
  pose proof Hfind as (Hi & Hpid & Hleast)%list_find_Some.
  apply list_find_Some. split_and!.
  - apply list_lookup_insert_eq. by eapply lookup_lt_Some.
  - done.
  - intros k q Hk Hlt. rewrite list_lookup_insert_ne in Hk by lia. eauto.
Qed.

(** ** assignDriver *)

(** C8.  assignDriver fails with NotFound when no stored pool has the
    given poolId, and with AlreadyAccepted when the pool found has a
    driverId set; otherwise it succeeds and writes the pool back with the
    simulated driver's id and name, every other field but the status as it
    was, and the status CONFIRMED when the passenger list is at capacity,
    ACCEPTED when it is not. *)
Theorem assignDriver_spec st pid :
  (list_find (λ q, poolId q = pid) (getPoolsFromStorage st) = None →
   assignDriver pid st = (mkResult false msgNotFound, st))
  ∧ (∀ i p,
       list_find (λ q, poolId q = pid) (getPoolsFromStorage st) = Some (i, p) →
       truthy (driverId p) = true →
       assignDriver pid st = (mkResult false msgAlreadyAccepted, st))
  ∧ (∀ i p,
       list_find (λ q, poolId q = pid) (getPoolsFromStorage st) = Some (i, p) →
       truthy (driverId p) = false →
       ∃ msg p',
         assignDriver pid st
         = (mkResult true msg, Some (<[i := p']> (getPoolsFromStorage st)))
         ∧ p' = mkPool (poolId p) (destination p) (pickupLocation p)
                  (departureTime p) (capacity p) (passengers p)
                  (pricePerHead p) (status p')
                  (Some currentDriver_driverId) (Some currentDriver_name)
                  (createdBy p)
         ∧ (length (passengers p) = capacity p → status p' = CONFIRMED)
         ∧ (length (passengers p) ≠ capacity p → status p' = ACCEPTED)).
Proof.
  split_and!.
  - intros Hfind. unfold assignDriver. by rewrite Hfind.
  - intros i p Hfind Hset. unfold assignDriver. by rewrite Hfind, Hset.
  - intros i p Hfind Hnot. unfold assignDriver. rewrite Hfind, Hnot. simpl.
    case_bool_decide as Hfull; do 2 eexists; (split; [reflexivity|]);
      simpl; split_and!; done.
Qed.

(** ** getMyJoinedPool *)

(** C9, as amended.  In every reachable state the current user occurs at
    most once in each pool's passenger list, and getMyJoinedPool returns
    the first stored pool, in collection order, that has the current user
    as a passenger, or nothing when no stored pool has. *)
Theorem getMyJoinedPool_first_match st :
  reachable st →
  (∀ p, p ∈ getPoolsFromStorage st →
        length (filter isCurrentUser (passengers p)) ≤ 1)
  ∧ match getMyJoinedPool st with
    | Some p =>
        ∃ i, getPoolsFromStorage st !! i = Some p ∧ hasCurrentUser p
             ∧ ∀ j q, getPoolsFromStorage st !! j = Some q → j < i →
                      ¬ hasCurrentUser q
    | None => ∀ q, q ∈ getPoolsFromStorage st → ¬ hasCurrentUser q
    end.
Proof.
  intros Hr. split.
  - intros p Hin. destruct (reachable_at_most_one st p Hr Hin) as [Hle _].
    pose proof (length_filter isCurrentUser (passengers p)). lia.
  - unfold getMyJoinedPool.
    destruct (list_find hasCurrentUser _) as [[i p]|] eqn:Hf; simpl.
    + apply list_find_Some in Hf as (Hi & Hp & Hleast). exists i. eauto.
    + apply list_find_None in Hf. by rewrite Forall_forall in Hf.
Qed.

(** ** Sample runs *)

Lemma st_joined_reachable : reachable st_joined.
Proof. unfold st_joined, st_created, reachable. do 2 apply reach_step. apply reach_refl. Defined.

Lemma pool5_in_st_joined : pool5_joined ∈ getPoolsFromStorage st_joined.
Proof. vm_compute. left. Defined.

Lemma find_pool5_joined :
  list_find (λ q, poolId q = "pool-5") (getPoolsFromStorage st_joined)
  = Some (0, pool5_joined).
Proof. vm_compute. reflexivity. Defined.

Lemma pool_full_confirmed_ok : pool_ok pool_full_confirmed.
Proof.
  split; simpl; try done.
  apply (bool_decide_unpack _). vm_compute. exact I.
Defined.

Lemma confirmed_iff_driver_and_full_witness :
  reachable st_joined ∧ pool5_joined ∈ getPoolsFromStorage st_joined
  ∧ (status pool5_joined = CONFIRMED ↔
     driverId pool5_joined ≠ None
     ∧ length (passengers pool5_joined) = capacity pool5_joined).
Proof.
  split_and!; [apply st_joined_reachable|apply pool5_in_st_joined|].
  apply (confirmed_iff_driver_and_full st_joined pool5_joined);
    [apply st_joined_reachable|apply pool5_in_st_joined].
Defined.

Lemma passengers_within_capacity_witness :
  reachable st_created
  ∧ pool5_joined ∈ getPoolsFromStorage (exec (OpJoin "pool-5") st_created)
  ∧ length (passengers pool5_joined) ≤ capacity pool5_joined.
Proof.
  assert (reachable st_created) as Hr
    by (unfold st_created, reachable; apply reach_step, reach_refl).
  split_and!; [done|apply pool5_in_st_joined|].
  apply (passengers_within_capacity st_created (OpJoin "pool-5") pool5_joined);
    [done|apply pool5_in_st_joined].
Defined.

Lemma pending_has_no_driver_witness :
  reachable st_joined
  ∧ getAvailablePoolsForDriver st_joined
    = filter (λ p, status p = PENDING) (getPoolsFromStorage st_joined).
Proof.
  split; [apply st_joined_reachable|].
  apply (pending_has_no_driver st_joined), st_joined_reachable.
Defined.

Lemma generatePredictivePools_twice_witness :
  ¬ Exists pendingToStation (getPoolsFromStorage None)
  ∧ generatePredictivePools (mkDate 10 2) (mkDate 10 2) "18:00b" 8
      (generatePredictivePools (mkDate 10 2) (mkDate 10 2) "18:00a" 7 None)
    = Some (getPoolsFromStorage None ++ [predictivePool "18:00a" 7]).
Proof.
  assert (¬ Exists pendingToStation (getPoolsFromStorage None)) as Hno
    by (by intros ?%Exists_nil).
  split; [done|].
  destruct (generatePredictivePools_twice (mkDate 10 2) (mkDate 10 2)
              "18:00a" 7 "18:00b" 8 None) as (_ & Hone & _).
  by apply Hone.
Defined.

Lemma joinPool_full_witness :
  list_find (λ q, poolId q = "pool-9")
    (getPoolsFromStorage (Some [pool_full_confirmed]))
  = Some (0, pool_full_confirmed)
  ∧ length (passengers pool_full_confirmed) = capacity pool_full_confirmed
  ∧ joinPool "pool-9" (Some [pool_full_confirmed])
    = (mkResult false msgFull, Some [pool_full_confirmed]).
Proof.
  split_and!; [by vm_compute|done|].
  apply (joinPool_full (Some [pool_full_confirmed]) "pool-9" 0
           pool_full_confirmed); [by vm_compute|done].
Defined.

Lemma joinPool_already_joined_witness :
  length (passengers pool5_joined) < capacity pool5_joined
  ∧ Exists isCurrentUser (passengers pool5_joined)
  ∧ NoDup (userId <$> passengers pool5_joined)
  ∧ joinPool "pool-5" st_joined
    = (mkResult false msgAlreadyJoined, st_joined)
  ∧ length (filter isCurrentUser (passengers pool5_joined)) = 1.
Proof.
  assert (length (passengers pool5_joined) < capacity pool5_joined) as Hlt
    by (vm_compute; lia).
  assert (Exists isCurrentUser (passengers pool5_joined)) as Hex
    by (by left).
  assert (NoDup (userId <$> passengers pool5_joined)) as Hnd
    by (apply (bool_decide_unpack _); vm_compute; exact I).
  destruct (joinPool_already_joined st_joined "pool-5" 0 pool5_joined
              find_pool5_joined Hlt Hex) as (Hj & _ & Hone).
  split_and!; [done..|by apply Hone].
Defined.

Lemma exitPool_last_passenger_witness :
  passengers pool5_joined = [currentUser] ∧ isCurrentUser currentUser
  ∧ exitPool "pool-5" st_joined = (mkResult true "Pool exited.", Some []).
Proof.
  split_and!; [done..|].
  by destruct (exitPool_last_passenger st_joined "pool-5" 0 pool5_joined
                 currentUser find_pool5_joined eq_refl eq_refl) as (He & _).
Defined.

Lemma exitPool_confirmed_witness :
  pool_ok pool_full_confirmed
  ∧ status pool_full_confirmed = CONFIRMED
  ∧ Exists isCurrentUser (passengers pool_full_confirmed)
  ∧ ∃ p',
      exitPool "pool-9" (Some [pool_full_confirmed])
      = (mkResult true "Pool exited.", Some [p'])
      ∧ status p' = ACCEPTED
      ∧ driverId p' = Some "driver007"
      ∧ driverName p' = Some "Suresh K.".
Proof.
  assert (Exists isCurrentUser (passengers pool_full_confirmed)) as Hex
    by (apply (bool_decide_unpack _); vm_compute; exact I).
  split_and!; [apply pool_full_confirmed_ok|done..|].
  destruct (exitPool_confirmed (Some [pool_full_confirmed]) "pool-9" 0
              pool_full_confirmed pool_full_confirmed_ok eq_refl eq_refl Hex)
    as (p' & He & _ & Hs & Hd & _ & Hn & _).
  exists p'. by split_and!.
Defined.

Lemma assignDriver_spec_witness :
  assignDriver "pool-1" st_joined = (mkResult false msgNotFound, st_joined)
  ∧ assignDriver "pool-9" (Some [pool_full_confirmed])
    = (mkResult false msgAlreadyAccepted, Some [pool_full_confirmed])
  ∧ (∃ msg p',
       assignDriver "pool-9" (Some [pool_full_pending])
       = (mkResult true msg, Some [p'])
       ∧ driverId p' = Some "driver007" ∧ status p' = CONFIRMED)
  ∧ (∃ msg p',
       assignDriver "pool-5" st_joined = (mkResult true msg, Some [p'])
       ∧ driverId p' = Some "driver007" ∧ status p' = ACCEPTED).
Proof.
  split_and!.
  - by apply (assignDriver_spec st_joined "pool-1").
  - destruct (assignDriver_spec (Some [pool_full_confirmed]) "pool-9")
      as (_ & Hset & _).
    by apply (Hset 0 pool_full_confirmed).
  - destruct (assignDriver_spec (Some [pool_full_pending]) "pool-9")
      as (_ & _ & Hfree).
    destruct (Hfree 0 pool_full_pending eq_refl eq_refl)
      as (msg & p' & Ha & Hp' & Hfull & _).
    exists msg, p'. split_and!; [done|by rewrite Hp'|by apply Hfull].
  - destruct (assignDriver_spec st_joined "pool-5") as (_ & _ & Hfree).
    destruct (Hfree 0 pool5_joined find_pool5_joined eq_refl)
      as (msg & p' & Ha & Hp' & _ & Hopen).
    exists msg, p'. split_and!; [done|by rewrite Hp'|by apply Hopen].
Defined.

Lemma getMyJoinedPool_first_match_witness :
  reachable st_joined
  ∧ ∀ p, p ∈ getPoolsFromStorage st_joined →
         length (filter isCurrentUser (passengers p)) ≤ 1.
Proof.
  split; [apply st_joined_reachable|].
  apply (getMyJoinedPool_first_match st_joined), st_joined_reachable.
Defined.

(** ** Counterexamples *)

(** C6 as stated fails: right after createPool the stored collection
    retains a pool with zero passengers. *)
Lemma createPool_retains_empty_pool :
  reachable st_created
  ∧ pool5_created ∈ getPoolsFromStorage st_created
  ∧ length (passengers pool5_created) = 0.
Proof.
  split_and!; [|vm_compute; left|done].
  unfold st_created, reachable. apply reach_step, reach_refl.
Qed.

(** C9 as stated fails: after creating two pools and joining both, the
    current user is a passenger of two stored pools. *)
Lemma joined_two_pools :
  reachable st_two_joined ∧ ¬ joined_at_most_one st_two_joined.
Proof.
  split.
  - unfold st_two_joined, reachable. do 4 apply reach_step. apply reach_refl.
  - intros Huniq.
    assert (0 = 1) as Habs; [|done].
    apply (Huniq 0 1 (joinedPool (createdPool tripData 5))
                     (joinedPool (createdPool tripData 6)));
      [by vm_compute|by vm_compute|by left|by left].
Qed.

(** ** List facts used below *)

Lemma filter_insert_same {A} (P : A → Prop) `{!∀ x, Decision (P x)}
    (l : list A) i x y :
  l !! i = Some y → ¬ P x → ¬ P y → filter P (<[i := x]> l) = filter P l.
Proof.
  intros Hi Hx Hy. rewrite insert_take_drop by (by eapply lookup_lt_Some).
  rewrite <-(take_drop_middle l i y Hi) at 3.
  rewrite !filter_app, !filter_cons. by rewrite !decide_False.
Qed.

Lemma filter_delete_same {A} (P : A → Prop) `{!∀ x, Decision (P x)}
    (l : list A) i y :
  l !! i = Some y → ¬ P y → filter P (delete i l) = filter P l.
Proof.
  intros Hi Hy. rewrite delete_take_drop.
  rewrite <-(take_drop_middle l i y Hi) at 3.
  rewrite !filter_app, !filter_cons. by rewrite decide_False.
Qed.

Lemma filter_insert_le {A} (P : A → Prop) `{!∀ x, Decision (P x)}
    (l : list A) i x y :
  l !! i = Some y → (P x → P y) →
  length (filter P (<[i := x]> l)) ≤ length (filter P l).
Proof.
  intros Hi Hxy. rewrite insert_take_drop by (by eapply lookup_lt_Some).
  rewrite <-(take_drop_middle l i y Hi) at 3.
  rewrite !filter_app, !filter_cons, !length_app.
  destruct (decide (P x)) as [Hx|Hx].
  - rewrite decide_True by auto. done.
  - destruct (decide (P y)); simpl; lia.
Qed.

Lemma filter_delete_le {A} (P : A → Prop) `{!∀ x, Decision (P x)}
    (l : list A) i y :
  l !! i = Some y →
  length (filter P (delete i l)) ≤ length (filter P l).
Proof.
  intros Hi. rewrite delete_take_drop.
  rewrite <-(take_drop_middle l i y Hi) at 3.
  rewrite !filter_app, !filter_cons, !length_app.
  destruct (decide (P y)); simpl; lia.
Qed.

Lemma delete_insert_same {A} (l : list A) i x :
  delete i (<[i := x]> l) = delete i l.
Proof.
  revert i. induction l as [|a l IH]; intros [|i]; simpl; [done..|].
  by rewrite IH.
Qed.

(** Writing a pool back under the same poolId keeps it the one that id
    identifies. *)
Lemma find_after_update (l : list Pool) pid i p p' :
  list_find (λ q, poolId q = pid) l = Some (i, p) →
  poolId p' = pid →
  list_find (λ q, poolId q = pid) (<[i := p']> l) = Some (i, p').
Proof.
  intros (Hi & Hpid & Hleast)%list_find_Some Hsame.
  apply list_find_Some. split_and!; [|done|].
  - apply list_lookup_insert_eq. by eapply lookup_lt_Some.
  - intros k q Hk Hlt. rewrite list_lookup_insert_ne in Hk by lia. eauto.
Qed.

Lemma found_storage st pid i p :
  list_find (λ q, poolId q = pid) (getPoolsFromStorage st) = Some (i, p) →
  st = Some (getPoolsFromStorage st).
Proof. by destruct st. Qed.

(** ** Failing calls *)

(** X1.  A call of joinPool, exitPool or assignDriver that reports
    [success: false] has written nothing: the storage entry is the one it
    found. *)
Theorem failed_call_stores_nothing pid st :
  (success (joinPool pid st).1 = false → (joinPool pid st).2 = st)
  ∧ (success (exitPool pid st).1 = false → (exitPool pid st).2 = st)
  ∧ (success (assignDriver pid st).1 = false → (assignDriver pid st).2 = st).
Proof.
  split_and!.
  - unfold joinPool. destruct (list_find _ _) as [[i p]|]; [|done].
    repeat case_bool_decide; try done. by destruct (_ && _).
  - unfold exitPool. destruct (list_find _ _) as [[i p]|]; [|done].
    destruct (list_find isCurrentUser _) as [[j u]|]; [|done].
    simpl. by case_bool_decide.
  - unfold assignDriver. destruct (list_find _ _) as [[i p]|]; [|done].
    destruct (truthy _); [done|]. simpl. by case_bool_decide.
Qed.

(** X2.  exitPool answers NotFound when no stored pool has the poolId and
    NotAMember when the pool found has no passenger with the current
    user's userId; it succeeds exactly when the pool found has one. *)
Theorem exitPool_outcomes pid st :
  (list_find (λ q, poolId q = pid) (getPoolsFromStorage st) = None →
   exitPool pid st = (mkResult false msgNotFound, st))
  ∧ (∀ i p,
       list_find (λ q, poolId q = pid) (getPoolsFromStorage st) = Some (i, p) →
       ¬ Exists isCurrentUser (passengers p) →
       exitPool pid st = (mkResult false msgNotAMember, st))
  ∧ (success (exitPool pid st).1 = true ↔
     ∃ i p,
       list_find (λ q, poolId q = pid) (getPoolsFromStorage st) = Some (i, p)
       ∧ Exists isCurrentUser (passengers p)).
Proof.
  split_and!.
  - intros Hf. unfold exitPool. by rewrite Hf.
  - intros i p Hf Hno. unfold exitPool. rewrite Hf.
    assert (list_find isCurrentUser (passengers p) = None) as ->; [|done].
    apply list_find_None, Forall_forall. intros u Hu Hcur.
    apply Hno, Exists_exists. eauto.
  - unfold exitPool. destruct (list_find _ _) as [[i p]|] eqn:Hf.
    + destruct (list_find isCurrentUser _) as [[j u]|] eqn:Hu.
      * split; [|simpl; by case_bool_decide].
        intros _. exists i, p. split; [done|].
        apply list_find_Some in Hu as (Hj & Hcur & _).
        apply Exists_exists. exists u. split; [|done].
        apply list_elem_of_lookup. eauto.
      * split; [done|]. intros (i' & p' & [= <- <-] & Hex).
        apply list_find_None in Hu. by apply Forall_not_Exists in Hu.
    + split; [done|]. by intros (i & p & ? & _).
Qed.

(** X3.  joinPool answers NotFound when no stored pool has the poolId, and
    it succeeds exactly when the pool found has a free seat and no
    passenger with the current user's userId. *)
Theorem joinPool_outcomes pid st :
  (list_find (λ q, poolId q = pid) (getPoolsFromStorage st) = None →
   joinPool pid st = (mkResult false msgNotFound, st))
  ∧ (success (joinPool pid st).1 = true ↔
     ∃ i p,
       list_find (λ q, poolId q = pid) (getPoolsFromStorage st) = Some (i, p)
       ∧ length (passengers p) < capacity p
       ∧ ¬ Exists isCurrentUser (passengers p)).
Proof.
  split.
  - intros Hf. unfold joinPool. by rewrite Hf.
  - unfold joinPool. destruct (list_find _ _) as [[i p]|] eqn:Hf.
    + case_bool_decide as Hcap.
      { split; [done|]. intros (i' & p' & [= <- <-] & Hlt & _). lia. }
      case_bool_decide as Hin.
      { split; [done|]. by intros (i' & p' & [= <- <-] & _ & Hno). }
      split; [|by destruct (_ && _)].
      intros _. exists i, p. split_and!; [done|lia|done].
    + split; [done|]. by intros (i & p & ? & _).
Qed.

(** ** Fields of the records written back *)

Lemma joinedPool_fields p :
  poolId (joinedPool p) = poolId p
  ∧ capacity (joinedPool p) = capacity p
  ∧ passengers (joinedPool p) = passengers p ++ [currentUser]
  ∧ driverId (joinedPool p) = driverId p
  ∧ driverName (joinedPool p) = driverName p.
Proof. unfold joinedPool. by destruct (_ && _). Qed.

Lemma acceptedPool_fields p :
  poolId (acceptedPool p) = poolId p
  ∧ capacity (acceptedPool p) = capacity p
  ∧ passengers (acceptedPool p) = passengers p
  ∧ driverId (acceptedPool p) = Some currentDriver_driverId
  ∧ driverName (acceptedPool p) = Some currentDriver_name
  ∧ status (acceptedPool p) ≠ PENDING.
Proof. unfold acceptedPool. by case_bool_decide. Qed.

Lemma exitedPool_fields j p :
  poolId (exitedPool j p) = poolId p
  ∧ capacity (exitedPool j p) = capacity p
  ∧ passengers (exitedPool j p) = delete j (passengers p)
  ∧ driverId (exitedPool j p) = driverId p
  ∧ driverName (exitedPool j p) = driverName p.
Proof. unfold exitedPool. by case_bool_decide. Qed.

Lemma joinPool_success_inv pid st :
  success (joinPool pid st).1 = true →
  ∃ i p,
    list_find (λ q, poolId q = pid) (getPoolsFromStorage st) = Some (i, p)
    ∧ length (passengers p) < capacity p
    ∧ ¬ Exists isCurrentUser (passengers p).
Proof.
  unfold joinPool. destruct (list_find _ _) as [[i p]|] eqn:Hf; [|done].
  case_bool_decide; [done|]. case_bool_decide; [done|].
  intros _. exists i, p. split_and!; [done|lia|done].
Qed.

Lemma exitPool_success_inv pid st :
  success (exitPool pid st).1 = true →
  ∃ i p j u,
    list_find (λ q, poolId q = pid) (getPoolsFromStorage st) = Some (i, p)
    ∧ list_find isCurrentUser (passengers p) = Some (j, u).
Proof.
  unfold exitPool. destruct (list_find _ _) as [[i p]|] eqn:Hf; [|done].
  destruct (list_find isCurrentUser _) as [[j u]|] eqn:Hu; [|done].
  intros _. by exists i, p, j, u.
Qed.

Lemma assignDriver_success_inv pid st :
  success (assignDriver pid st).1 = true →
  ∃ i p,
    list_find (λ q, poolId q = pid) (getPoolsFromStorage st) = Some (i, p)
    ∧ truthy (driverId p) = false.
Proof.
  unfold assignDriver. destruct (list_find _ _) as [[i p]|] eqn:Hf; [|done].
  destruct (truthy (driverId p)) eqn:Hd; [done|].
  intros _. by exists i, p.
Qed.

(** The leaving passenger of a pool just joined is the one appended. *)
Lemma find_appended_user (l : list User) :
  ¬ Exists isCurrentUser l →
  list_find isCurrentUser (l ++ [currentUser]) = Some (length l, currentUser).
Proof.
  intros Hno. apply list_find_Some. split_and!.
  - by rewrite lookup_app_r, Nat.sub_diag.
  - done.
  - intros k u Hk Hlt Hcur. rewrite lookup_app_l in Hk by done.
    apply Hno, Exists_exists. exists u. split; [|done].
    apply list_elem_of_lookup. eauto.
Qed.

(** ** Calls in sequence *)

(** X4.  After a successful joinPool, a second joinPool with the same
    poolId fails and writes nothing: with Full when the first join took
    the last seat (the capacity test comes first), with AlreadyJoined
    otherwise. *)
Theorem joinPool_twice pid st :
  success (joinPool pid st).1 = true →
  ∃ i p,
    list_find (λ q, poolId q = pid) (getPoolsFromStorage st) = Some (i, p)
    ∧ joinPool pid (joinPool pid st).2
      = (mkResult false
           (if bool_decide (S (length (passengers p)) = capacity p)
            then msgFull else msgAlreadyJoined),
         (joinPool pid st).2).
Proof.
  intros (i & p & Hf & Hlt & Hno)%joinPool_success_inv. exists i, p.
  split; [done|].
  destruct (joinPool_stores st pid i p Hf Hlt Hno) as [_ ->].
  pose proof Hf as (_ & Hpid & _)%list_find_Some.
  destruct (joinedPool_fields p) as (Hid & Hcap & Hpass & _).
  unfold joinPool at 1. simpl.
  rewrite (find_after_update _ pid i p (joinedPool p) Hf) by congruence.
  rewrite Hcap, Hpass, length_app. simpl.
  destruct (decide (S (length (passengers p)) = capacity p)) as [Hfull|Hfull].
  - rewrite (bool_decide_eq_true_2 (capacity p ≤ _)) by lia.
    by rewrite (bool_decide_eq_true_2 (S _ = _)).
  - rewrite (bool_decide_eq_false_2 (capacity p ≤ _)) by lia.
    rewrite (bool_decide_eq_true_2 (Exists _ _)).
    + by rewrite (bool_decide_eq_false_2 (S _ = _)).
    + apply Exists_app. right. by left.
Qed.

(** X5.  After a successful assignDriver, the pool under that poolId
    carries the simulated driver and is no longer PENDING, and a second
    assignDriver with the same poolId fails with AlreadyAccepted and
    writes nothing. *)
Theorem assignDriver_twice pid st :
  success (assignDriver pid st).1 = true →
  (∃ i p',
     list_find (λ q, poolId q = pid)
       (getPoolsFromStorage (assignDriver pid st).2) = Some (i, p')
     ∧ driverId p' = Some currentDriver_driverId
     ∧ driverName p' = Some currentDriver_name
     ∧ status p' ≠ PENDING)
  ∧ assignDriver pid (assignDriver pid st).2
    = (mkResult false msgAlreadyAccepted, (assignDriver pid st).2).
Proof.
  intros (i & p & Hf & Hd)%assignDriver_success_inv.
  destruct (assignDriver_stores st pid i p Hf Hd) as [_ ->].
  pose proof Hf as (_ & Hpid & _)%list_find_Some.
  destruct (acceptedPool_fields p) as (Hid & _ & _ & Hdrv & Hname & Hst).
  assert (list_find (λ q, poolId q = pid)
            (<[i := acceptedPool p]> (getPoolsFromStorage st))
          = Some (i, acceptedPool p)) as Hf'
    by (apply (find_after_update _ pid i p); congruence).
  split.
  - by exists i, (acceptedPool p).
  - unfold assignDriver at 1. simpl. rewrite Hf', Hdrv. done.
Qed.

(** X6.  Joining a pool that has other passengers and then exiting it
    restores the storage entry exactly, when the pool satisfies the
    data-model invariants: the appended passenger is the one removed and a
    confirmation made by the join is undone by the exit. *)
Theorem join_then_exit_restores pid st i p :
  pool_ok p →
  list_find (λ q, poolId q = pid) (getPoolsFromStorage st) = Some (i, p) →
  passengers p ≠ [] →
  success (joinPool pid st).1 = true →
  exitPool pid (joinPool pid st).2 = (mkResult true "Pool exited.", st).
Proof.
  intros [Hcap Hsz Hnd Hdr Hconf Hpend] Hf Hne
         (i' & p' & Hf' & Hlt & Hno)%joinPool_success_inv.
  rewrite Hf in Hf'. injection Hf' as <- <-.
  destruct (joinPool_stores st pid i p Hf Hlt Hno) as [_ ->].
  pose proof Hf as (Hi & Hpid & _)%list_find_Some.
  destruct (joinedPool_fields p) as (Hid & _ & Hpass & _).
  assert (delete (length (passengers p)) (passengers (joinedPool p))
          = passengers p) as Hdel.
  { rewrite Hpass. rewrite (delete_middle (passengers p) [] currentUser).
    by rewrite app_nil_r. }
  rewrite (exitPool_stores _ pid i (joinedPool p)
             (length (passengers p)) currentUser).
  - rewrite (found_storage st pid i p Hf) at 2. do 2 f_equal. simpl.
    rewrite list_insert_insert_eq. apply list_insert_id. rewrite Hi. f_equal.
    unfold exitedPool. rewrite Hdel.
    assert (status p ≠ CONFIRMED) as Hnc by (rewrite Hconf; lia).
    unfold joinedPool. simpl. rewrite length_app. simpl.
    destruct p as [id dst pick dep cap pas price stat drv dname mk].
    simpl in *. destruct (bool_decide _ && truthy drv) eqn:Hb; simpl.
    + apply andb_true_iff in Hb as [_ Htr].
      apply truthy_Some_ne in Htr; [|done].
      destruct stat; [|done|done]. destruct Htr. by apply Hpend.
    + rewrite bool_decide_eq_false_2 by done. done.
  - simpl. apply (find_after_update _ pid i p); [done|congruence].
  - rewrite Hpass. by apply find_appended_user.
  - by rewrite Hdel.
Qed.

(** X7.  Joining a pool that has no passenger and then exiting it does not
    restore the storage entry: the exit deletes the pool. *)
Theorem join_then_exit_deletes_empty_pool pid st i p :
  list_find (λ q, poolId q = pid) (getPoolsFromStorage st) = Some (i, p) →
  passengers p = [] →
  0 < capacity p →
  exitPool pid (joinPool pid st).2
  = (mkResult true "Pool exited.",
     Some (delete i (getPoolsFromStorage st))).
Proof.
  intros Hf Hempty Hcap.
  assert (¬ Exists isCurrentUser (passengers p)) as Hno
    by (rewrite Hempty; by intros ?%Exists_nil).
  assert (length (passengers p) < capacity p) as Hlt
    by (by rewrite Hempty).
  destruct (joinPool_stores st pid i p Hf Hlt Hno) as [_ ->].
  pose proof Hf as (_ & Hpid & _)%list_find_Some.
  destruct (joinedPool_fields p) as (Hid & _ & Hpass & _).
  unfold exitPool. simpl.
  rewrite (find_after_update _ pid i p (joinedPool p) Hf) by congruence.
  rewrite Hpass, Hempty. simpl. by rewrite delete_insert_same.
Qed.

(** ** Pools a call does not target *)

(** X8.  joinPool, exitPool and assignDriver with a poolId leave every
    stored pool that has another poolId as it is and where it is: the
    sub-list of the pools with other ids is the same before and after. *)
Theorem other_pools_untouched pid st :
  filter (λ q, poolId q ≠ pid) (getPoolsFromStorage (joinPool pid st).2)
  = filter (λ q, poolId q ≠ pid) (getPoolsFromStorage st)
  ∧ filter (λ q, poolId q ≠ pid) (getPoolsFromStorage (exitPool pid st).2)
    = filter (λ q, poolId q ≠ pid) (getPoolsFromStorage st)
  ∧ filter (λ q, poolId q ≠ pid) (getPoolsFromStorage (assignDriver pid st).2)
    = filter (λ q, poolId q ≠ pid) (getPoolsFromStorage st).
Proof.
  assert (∀ i p q, list_find (λ q, poolId q = pid) (getPoolsFromStorage st)
                   = Some (i, p) → poolId q = poolId p →
            filter (λ q, poolId q ≠ pid) (<[i := q]> (getPoolsFromStorage st))
            = filter (λ q, poolId q ≠ pid) (getPoolsFromStorage st)) as Hupd.
  { intros i p q (Hi & Hpid & _)%list_find_Some Hq.
    apply (filter_insert_same _ _ i q p Hi); intros Hne; apply Hne; congruence. }
  split_and!.
  - unfold joinPool. destruct (list_find _ _) as [[i p]|] eqn:Hf; [|done].
    case_bool_decide; [done|]. case_bool_decide; [done|].
    destruct (_ && _); simpl; by apply (Hupd i p).
  - unfold exitPool. destruct (list_find _ _) as [[i p]|] eqn:Hf; [|done].
    destruct (list_find isCurrentUser _) as [[j u]|]; [|done].
    simpl. case_bool_decide; simpl.
    + apply list_find_Some in Hf as (Hi & Hpid & _).
      apply (filter_delete_same _ _ i p Hi). intros Hne. by apply Hne.
    + case_bool_decide; by apply (Hupd i p).
  - unfold assignDriver. destruct (list_find _ _) as [[i p]|] eqn:Hf; [|done].
    destruct (truthy _); [done|]. simpl.
    case_bool_decide; by apply (Hupd i p).
Qed.

(** ** createPool and the queries *)

(** X9.  createPool always succeeds and appends one pool; the new pool is
    listed last for students and for drivers, and the pool the current
    user has joined stays the same (the creator is not made a
    passenger). *)
Theorem createPool_then_queries poolData now st :
  success (createPool poolData now st).1 = true
  ∧ getPoolsFromStorage (createPool poolData now st).2
    = getPoolsFromStorage st ++ [createdPool poolData now]
  ∧ getAvailablePoolsForStudent (createPool poolData now st).2
    = getAvailablePoolsForStudent st ++ [createdPool poolData now]
  ∧ getAvailablePoolsForDriver (createPool poolData now st).2
    = getAvailablePoolsForDriver st ++ [createdPool poolData now]
  ∧ getMyJoinedPool (createPool poolData now st).2 = getMyJoinedPool st.
Proof.
  rewrite createPool_stores. simpl. split_and!; [done..| | |].
  - unfold getAvailablePoolsForStudent. simpl. by rewrite filter_app.
  - unfold getAvailablePoolsForDriver. simpl. by rewrite filter_app.
  - unfold getMyJoinedPool. simpl.
    destruct (list_find hasCurrentUser (getPoolsFromStorage st))
      as [[i p]|] eqn:Hf.
    + by rewrite (list_find_app_l _ _ _ i p Hf).
    + rewrite (list_find_app_r _ _ _ Hf). done.
Qed.

(** X10.  Every pool a driver is offered is also offered to students: the
    driver list is the student list restricted to the PENDING pools
    without a driver, in the same order. *)
Theorem driver_pools_among_student_pools st :
  getAvailablePoolsForDriver st
  = filter (λ p, status p = PENDING ∧ truthy (driverId p) = false)
           (getAvailablePoolsForStudent st)
  ∧ getAvailablePoolsForDriver st `sublist_of` getAvailablePoolsForStudent st.
Proof.
  assert (getAvailablePoolsForDriver st
          = filter (λ p, status p = PENDING ∧ truthy (driverId p) = false)
                   (getAvailablePoolsForStudent st)) as Heq.
  { unfold getAvailablePoolsForDriver, getAvailablePoolsForStudent.
    rewrite list_filter_filter. apply list_filter_iff. intros p.
    split; [|by intros [? _]]. intros [Hs Hd]. split; [done|].
    rewrite Hs. left. }
  split; [done|]. rewrite Heq. apply sublist_filter.
Qed.

(** X11.  When the current user is a passenger of no stored pool, a
    successful joinPool makes getMyJoinedPool return the pool joined, with
    the current user as its last passenger. *)
Theorem joinPool_then_getMyJoinedPool pid st :
  getMyJoinedPool st = None →
  success (joinPool pid st).1 = true →
  ∃ i p,
    list_find (λ q, poolId q = pid) (getPoolsFromStorage st) = Some (i, p)
    ∧ getMyJoinedPool (joinPool pid st).2 = Some (joinedPool p)
    ∧ passengers (joinedPool p) = passengers p ++ [currentUser].
Proof.
  intros Hnone (i & p & Hf & Hlt & Hno)%joinPool_success_inv.
  exists i, p. destruct (joinedPool_fields p) as (_ & _ & Hpass & _).
  split_and!; [done| |done].
  destruct (joinPool_stores st pid i p Hf Hlt Hno) as [_ ->].
  unfold getMyJoinedPool in *. simpl.
  destruct (list_find hasCurrentUser (getPoolsFromStorage st)) eqn:Hold;
    [done|].
  apply list_find_None in Hold. rewrite Forall_lookup in Hold.
  apply list_find_Some in Hf as (Hi & _ & _).
  assert (list_find hasCurrentUser
            (<[i := joinedPool p]> (getPoolsFromStorage st))
          = Some (i, joinedPool p)) as ->; [|done].
  apply list_find_Some. split_and!.
  - apply list_lookup_insert_eq. by eapply lookup_lt_Some.
  - unfold hasCurrentUser. rewrite Hpass. apply Exists_app. right. by left.
  - intros k q Hk Hlt'. rewrite list_lookup_insert_ne in Hk by lia. eauto.
Qed.

(** X12.  When the joining passenger takes the last seat of a pool that
    has a driver, joinPool succeeds with the confirmation message and
    writes the pool back as CONFIRMED; when a seat stays free or no driver
    is assigned, the message is the plain one and the status is kept. *)
Theorem joinPool_confirms_when_full pid st i p :
  list_find (λ q, poolId q = pid) (getPoolsFromStorage st) = Some (i, p) →
  length (passengers p) < capacity p →
  ¬ Exists isCurrentUser (passengers p) →
  ∃ p',
    (joinPool pid st).2 = Some (<[i := p']> (getPoolsFromStorage st))
    ∧ passengers p' = passengers p ++ [currentUser]
    ∧ (S (length (passengers p)) = capacity p ∧ truthy (driverId p) = true →
       status p' = CONFIRMED
       ∧ (joinPool pid st).1
         = mkResult true
             ("Pool to " +:+ destination p
              +:+ " is now full and confirmed! Your ride is scheduled."))
    ∧ (S (length (passengers p)) ≠ capacity p ∨ truthy (driverId p) = false →
       status p' = status p
       ∧ (joinPool pid st).1 = mkResult true "Joined the pool!").
Proof.
  intros Hf Hlt Hno. unfold joinPool. rewrite Hf.
  rewrite (bool_decide_eq_false_2 (capacity p ≤ _)) by lia.
  rewrite (bool_decide_eq_false_2 (Exists _ _)) by done.
  simpl. rewrite length_app. simpl. rewrite Nat.add_1_r.
  destruct (decide (S (length (passengers p)) = capacity p)) as [Hfull|Hfull].
  - rewrite (bool_decide_eq_true_2 _ Hfull). simpl.
    destruct (truthy (driverId p)) eqn:Hd; eexists; simpl;
      (split_and!; [reflexivity|done|..]).
    + done.
    + by intros [?|?].
    + by intros [_ ?].
    + done.
  - rewrite (bool_decide_eq_false_2 _ Hfull). simpl.
    eexists. split_and!; [reflexivity|done|by intros [? _]|done].
Qed.

(** ** One simulated student *)

Lemma filter_all {A} (P : A → Prop) `{!∀ x, Decision (P x)} (l : list A) :
  Forall P l → filter P l = l.
Proof.
  induction 1 as [|x l Hx _ IH]; [done|].
  by rewrite filter_cons, decide_True, IH.
Qed.

Lemma solo_passengers p :
  pool_ok p → pool_solo p → passengers p = [] ∨ passengers p = [currentUser].
Proof.
  intros [_ _ Hnd _ _ _] Hs. unfold pool_solo in Hs.
  destruct (passengers p) as [|u [|v l]]; [by left| |].
  - right. by apply Forall_cons in Hs as [-> _].
  - exfalso. apply Forall_cons in Hs as [-> Hs]. apply Forall_cons in Hs as [-> _].
    simpl in Hnd. apply NoDup_cons in Hnd as [Hnd _]. apply Hnd. left.
Qed.

Lemma reachable_pool st p :
  reachable st → p ∈ getPoolsFromStorage st →
  pool_ok p ∧ (passengers p = [] ∨ passengers p = [currentUser]).
Proof.
  intros Hr Hin.
  pose proof (reachable_ok _ Hr) as Hok. pose proof (reachable_solo _ Hr) as Hs.
  unfold state_ok in Hok. rewrite Forall_forall in Hok, Hs.
  split; [by apply Hok|]. apply solo_passengers; auto.
Qed.

(** X13.  In every reachable state each pool has no passenger or the
    current user alone, no pool is CONFIRMED, and so the student list is
    the whole stored collection. *)
Theorem reachable_single_rider st :
  reachable st →
  (∀ p, p ∈ getPoolsFromStorage st →
        (passengers p = [] ∨ passengers p = [currentUser])
        ∧ status p ≠ CONFIRMED)
  ∧ getAvailablePoolsForStudent st = getPoolsFromStorage st.
Proof.
  intros Hr.
  assert (∀ p, p ∈ getPoolsFromStorage st →
               (passengers p = [] ∨ passengers p = [currentUser])
               ∧ status p ≠ CONFIRMED) as Hall.
  { intros p Hin. destruct (reachable_pool st p Hr Hin) as [Hok Hpas].
    split; [done|]. destruct Hok as [Hcap _ _ _ Hconf _]. rewrite Hconf.
    destruct Hpas as [Hp|Hp]; rewrite Hp, Hcap; simpl; lia. }
  split; [done|]. unfold getAvailablePoolsForStudent.
  apply filter_all, Forall_forall. intros p Hin.
  destruct (Hall p Hin) as [_ Hnc].
  destruct (status p); [left|right; left|done].
Qed.

(** X14.  In every reachable state joinPool never answers Full, and a
    successful joinPool always answers with the plain message: the
    confirmation branch is never taken. *)
Theorem reachable_joinPool_never_full pid st :
  reachable st →
  message (joinPool pid st).1 ≠ msgFull
  ∧ (success (joinPool pid st).1 = true →
     (joinPool pid st).1 = mkResult true "Joined the pool!").
Proof.
  intros Hr. unfold joinPool.
  destruct (list_find _ _) as [[i p]|] eqn:Hf; [|done].
  apply list_find_Some in Hf as (Hi & _ & _).
  assert (p ∈ getPoolsFromStorage st) as Hin
    by (apply list_elem_of_lookup; eauto).
  destruct (reachable_pool st p Hr Hin) as [[Hcap _ _ _ _ _] Hpas].
  rewrite (bool_decide_eq_false_2 (capacity p ≤ _))
    by (destruct Hpas as [Hp|Hp]; rewrite Hp, Hcap; simpl; lia).
  case_bool_decide; [done|]. simpl. rewrite length_app. simpl.
  rewrite (bool_decide_eq_false_2 (_ = capacity p))
    by (destruct Hpas as [Hp|Hp]; rewrite Hp, Hcap; simpl; lia).
  done.
Qed.

(** X15.  In every reachable state a successful exitPool deletes the pool:
    the current user was its only passenger. *)
Theorem reachable_exitPool_deletes pid st :
  reachable st →
  success (exitPool pid st).1 = true →
  ∃ i p,
    list_find (λ q, poolId q = pid) (getPoolsFromStorage st) = Some (i, p)
    ∧ passengers p = [currentUser]
    ∧ exitPool pid st
      = (mkResult true "Pool exited.",
         Some (delete i (getPoolsFromStorage st)))
    ∧ length (getPoolsFromStorage (exitPool pid st).2)
      = length (getPoolsFromStorage st) - 1.
Proof.
  intros Hr (i & p & j & u & Hf & Hu)%exitPool_success_inv.
  pose proof Hf as (Hi & _ & _)%list_find_Some.
  assert (p ∈ getPoolsFromStorage st) as Hin
    by (apply list_elem_of_lookup; eauto).
  destruct (reachable_pool st p Hr Hin) as [_ [Hp|Hp]].
  { by rewrite Hp in Hu. }
  assert (exitPool pid st
          = (mkResult true "Pool exited.",
             Some (delete i (getPoolsFromStorage st)))) as He.
  { unfold exitPool. by rewrite Hf, Hp. }
  exists i, p. split_and!; [done..|].
  rewrite He. simpl. apply length_delete. eauto.
Qed.

(** ** Fields that stay as created *)

Lemma pool_fields_fresh p : fresh_pool p → pool_fields p.
Proof.
  intros [dep now|pd now]; (split_and!; [done| |by left]); done.
Qed.

Lemma pool_step_keeps p q :
  pool_step p q →
  createdBy q = createdBy p ∧ destination q = destination p
  ∧ pricePerHead q = pricePerHead p ∧ poolId q = poolId p
  ∧ (status q = PENDING → status p = PENDING).
Proof.
  intros [Hlt Hno|i u Hfind Hne|Hfalsy].
  - unfold joinedPool. by destruct (_ && _).
  - unfold exitedPool. by case_bool_decide.
  - unfold acceptedPool. by case_bool_decide.
Qed.

Lemma pool_fields_step p q : pool_fields p → pool_step p q → pool_fields q.
Proof.
  intros (Hprice & Hdest & Hdrv) Hstep.
  destruct (pool_step_keeps p q Hstep) as (Hc & Hd & Hp & _ & _).
  split_and!; [congruence|rewrite Hc, Hd; done|].
  destruct Hstep as [Hlt Hno|i u Hfind Hne|Hfalsy].
  - by destruct (joinedPool_fields p) as (_ & _ & _ & -> & ->).
  - by destruct (exitedPool_fields i p) as (_ & _ & _ & -> & ->).
  - destruct (acceptedPool_fields p) as (_ & _ & _ & -> & -> & _). by right.
Qed.

Lemma reachable_fields st :
  reachable st → Forall pool_fields (getPoolsFromStorage st).
Proof.
  apply reachable_from_poolwise;
    [apply pool_fields_fresh|apply pool_fields_step|constructor].
Qed.

(** X16.  In every reachable state each pool has capacity 4 and price 50,
    and either no driver, no driver name and status PENDING, or the
    simulated driver's id and name and status ACCEPTED. *)
Theorem reachable_pool_fields st p :
  reachable st →
  p ∈ getPoolsFromStorage st →
  capacity p = 4 ∧ pricePerHead p = 50
  ∧ (driverId p = None ∧ driverName p = None ∧ status p = PENDING
     ∨ driverId p = Some currentDriver_driverId
       ∧ driverName p = Some currentDriver_name ∧ status p = ACCEPTED).
Proof.
  intros Hr Hin.
  destruct (reachable_pool st p Hr Hin) as [[Hcap _ _ _ Hconf Hpend] Hpas].
  pose proof (reachable_fields st Hr) as Hfl. rewrite Forall_forall in Hfl.
  destruct (Hfl p Hin) as (Hprice & _ & Hdrv).
  assert (status p ≠ CONFIRMED) as Hnc.
  { rewrite Hconf. destruct Hpas as [Hp|Hp]; rewrite Hp, Hcap; simpl; lia. }
  split_and!; [done..|].
  destruct Hdrv as [[Hd Hn]|[Hd Hn]].
  - left. split_and!; [done..|]. by apply Hpend.
  - right. split_and!; [done..|].
    destruct (status p) eqn:Hs; [|done|done].
    assert (driverId p = None) as Hnone by (by apply Hpend).
    congruence.
Qed.

(** ** The predictive pool *)

(** The five ways a call changes the stored collection. *)
Lemma exec_shape op st :
  getPoolsFromStorage (exec op st) = getPoolsFromStorage st
  ∨ (∃ departure now,
       ¬ Exists pendingToStation (getPoolsFromStorage st)
       ∧ getPoolsFromStorage (exec op st)
         = getPoolsFromStorage st ++ [predictivePool departure now])
  ∨ (∃ poolData now,
       getPoolsFromStorage (exec op st)
       = getPoolsFromStorage st ++ [createdPool poolData now])
  ∨ (∃ i p q,
       getPoolsFromStorage st !! i = Some p ∧ pool_step p q
       ∧ getPoolsFromStorage (exec op st)
         = <[i := q]> (getPoolsFromStorage st))
  ∨ (∃ i p,
       getPoolsFromStorage st !! i = Some p
       ∧ getPoolsFromStorage (exec op st)
         = delete i (getPoolsFromStorage st)).
Proof.
  destruct op as [loaded today dep now|pd now|pid|pid|pid]; simpl.
  - unfold generatePredictivePools.
    destruct (truthy _); [|by left]. case_bool_decide as Hex; simpl; [by left|].
    right; left. by exists dep, now.
  - right; right; left. by exists pd, now.
  - destruct (success (joinPool pid st).1) eqn:Hs.
    + apply joinPool_success_inv in Hs as (i & p & Hf & Hlt & Hno).
      destruct (joinPool_stores st pid i p Hf Hlt Hno) as [_ ->].
      apply list_find_Some in Hf as (Hi & _ & _).
      do 3 right; left. exists i, p, (joinedPool p).
      split_and!; [done|by constructor|done].
    + left. revert Hs. unfold joinPool.
      destruct (list_find _ _) as [[i p]|]; [|done].
      repeat case_bool_decide; try done. by destruct (_ && _).
  - unfold exitPool.
    destruct (list_find _ _) as [[i p]|] eqn:Hf; [|by left].
    apply list_find_Some in Hf as (Hi & _ & _).
    destruct (list_find isCurrentUser _) as [[j u]|] eqn:Hu; [|by left].
    simpl. case_bool_decide as Hlen; simpl.
    + do 4 right. by exists i, p.
    + do 3 right; left. exists i, p, (exitedPool j p). split_and!; [done| |done].
      econstructor; [done|]. intros Hnil. apply Hlen. by rewrite Hnil.
  - destruct (success (assignDriver pid st).1) eqn:Hs.
    + apply assignDriver_success_inv in Hs as (i & p & Hf & Hd).
      destruct (assignDriver_stores st pid i p Hf Hd) as [_ ->].
      apply list_find_Some in Hf as (Hi & _ & _).
      do 3 right; left. exists i, p, (acceptedPool p).
      split_and!; [done|by constructor|done].
    + left. revert Hs. unfold assignDriver.
      destruct (list_find _ _) as [[i p]|]; [|done].
      destruct (truthy _); [done|]. simpl. by case_bool_decide.
Qed.

Lemma exec_pending_predictive op st :
  Forall pool_fields (getPoolsFromStorage st) →
  length (filter pendingPredictive (getPoolsFromStorage st)) ≤ 1 →
  length (filter pendingPredictive (getPoolsFromStorage (exec op st))) ≤ 1.
Proof.
  intros Hfl Hle.
  destruct (exec_shape op st)
    as [->|[(dep & now & Hno & ->)|[(pd & now & ->)|
        [(i & p & q & Hi & Hstep & ->)|(i & p & Hi & ->)]]]].
  - done.
  - rewrite filter_app, length_app.
    assert (filter pendingPredictive (getPoolsFromStorage st) = []) as ->.
    { destruct (filter pendingPredictive _) as [|q l] eqn:Hq; [done|].
      assert (q ∈ filter pendingPredictive (getPoolsFromStorage st))
        as [[Hc Hs] Hin]%list_elem_of_filter by (rewrite Hq; left).
      rewrite Forall_forall in Hfl. destruct (Hfl q Hin) as (_ & Hdest & _).
      destruct Hno. apply Exists_exists. exists q. split; [done|].
      split; [by apply Hdest|done]. }
    pose proof (length_filter pendingPredictive [predictivePool dep now]).
    simpl in *. lia.
  - rewrite filter_app, length_app.
    rewrite filter_cons_False by (by intros [? _]). simpl. lia.
  - etrans; [|exact Hle]. apply (filter_insert_le _ _ i q p Hi).
    destruct (pool_step_keeps p q Hstep) as (Hc & _ & _ & _ & Hs).
    intros [? ?]. split; [congruence|auto].
  - etrans; [|exact Hle]. by eapply filter_delete_le.
Qed.

(** X17.  In every reachable state at most one stored pool is a PENDING
    pool made by the generator. *)
Theorem reachable_one_pending_predictive st :
  reachable st →
  length (filter pendingPredictive (getPoolsFromStorage st)) ≤ 1.
Proof.
  intros Hr. induction Hr as [|st op Hr IH]; [simpl; lia|].
  apply exec_pending_predictive; [|done].
  by apply reachable_fields.
Qed.

(** X18.  On the day the module was loaded, after a run of the generator
    the storage holds a PENDING pool to the station, and the student list
    shows one. *)
Theorem generate_ensures_pending_pool day departure now st :
  Exists pendingToStation
    (getPoolsFromStorage (init day day departure now st))
  ∧ Exists pendingToStation
      (getAvailablePoolsForStudent (init day day departure now st)).
Proof.
  assert (Exists pendingToStation
            (getPoolsFromStorage (init day day departure now st))) as Hex.
  { unfold init.
    destruct (decide (Exists pendingToStation (getPoolsFromStorage st)))
      as [He|He].
    - by rewrite generate_keeps.
    - rewrite (generate_adds day day departure now st
                 (high_demand_today day) He).
      simpl. apply Exists_app. right. by repeat constructor. }
  split; [done|].
  apply Exists_exists in Hex as (p & Hin & Hdest & Hs).
  apply Exists_exists. exists p. split; [|by split].
  unfold getAvailablePoolsForStudent. apply list_elem_of_filter.
  split; [|done]. rewrite Hs. left.
Qed.

(** ** The calendar key *)

Lemma pretty_N_go_no_dash x s : no_dash s → no_dash (pretty_N_go x s).
Proof.
  revert s. induction (N.lt_wf_0 x) as [x _ IH]; intros s Hs.
  assert (x = 0 ∨ 0 < x)%N as [->|Hx] by lia.
  - by rewrite pretty_N_go_0.
  - rewrite pretty_N_go_step by done. apply IH.
    { by apply N.div_lt. }
    split; [|done]. unfold pretty_N_char. by repeat case_match.
Qed.

Lemma pretty_nat_no_dash (n : nat) : no_dash (pretty n).
Proof.
  unfold pretty, pretty_nat, pretty, pretty_N.
  case_decide; [by split|]. by apply pretty_N_go_no_dash.
Qed.

Lemma split_at_dash a a' b b' :
  no_dash a → no_dash a' →
  a +:+ "-" +:+ b = a' +:+ "-" +:+ b' → a = a' ∧ b = b'.
Proof.
  assert (∀ t, "" +:+ t = t) as Hnil by done.
  assert (∀ c s t, String c s +:+ t = String c (s +:+ t)) as Hcons by done.
  revert a'. induction a as [|c a IH]; intros [|c' a'];
    repeat (rewrite Hnil || rewrite Hcons); simpl.
  - intros _ _ [= ->]. done.
  - intros _ [Hc _] [= <- _]. by destruct Hc.
  - intros [Hc _] _ [= -> _]. by destruct Hc.
  - intros [_ Ha] [_ Ha'] [= -> Heq].
    destruct (IH a' Ha Ha' Heq) as [-> ->]. done.
Qed.

Lemma dateKey_inj d1 d2 : dateKey d1 = dateKey d2 → d1 = d2.
Proof.
  unfold dateKey. intros Heq.
  apply split_at_dash in Heq as [Hm Hd]; [|apply pretty_nat_no_dash..].
  apply (inj pretty) in Hm. apply (inj pretty) in Hd.
  destruct d1 as [m1 day1], d2 as [m2 day2]. simpl in *. f_equal; lia.
Qed.

(** X19.  Two dates have the same calendar key only when they agree in
    month and day of month, so a run of the generator on any other day
    than the one the module was loaded on writes nothing. *)
Theorem generate_only_on_load_day loaded today departure now st :
  (dateKey today = dateKey loaded ↔ today = loaded)
  ∧ (today ≠ loaded →
     generatePredictivePools loaded today departure now st = st).
Proof.
  split.
  - split; [apply dateKey_inj|by intros ->].
  - intros Hne. unfold generatePredictivePools, highDemandEvents.
    rewrite lookup_singleton_ne; [done|].
    intros Heq. by apply Hne, dateKey_inj.
Qed.

(** ** Pool ids from the clock *)

(** X20.  When no stored pool has the id made from the clock reading,
    joinPool with that id right after createPool joins the new pool; when
    a stored pool already has it, the id keeps identifying that older
    pool after createPool, so the new pool is out of reach of the calls by
    id. *)
Theorem createPool_then_joinPool poolData now st :
  (Forall (λ q, poolId q ≠ "pool-" +:+ pretty now) (getPoolsFromStorage st) →
   joinPool ("pool-" +:+ pretty now) (createPool poolData now st).2
   = (mkResult true "Joined the pool!",
      Some (getPoolsFromStorage st ++ [joinedPool (createdPool poolData now)])))
  ∧ (∀ i p,
       list_find (λ q, poolId q = "pool-" +:+ pretty now)
         (getPoolsFromStorage st) = Some (i, p) →
       list_find (λ q, poolId q = "pool-" +:+ pretty now)
         (getPoolsFromStorage (createPool poolData now st).2) = Some (i, p)).
Proof.
  rewrite createPool_stores. simpl. split.
  - intros Hfresh.
    assert (list_find (λ q, poolId q = "pool-" +:+ pretty now)
              (getPoolsFromStorage st ++ [createdPool poolData now])
            = Some (length (getPoolsFromStorage st), createdPool poolData now))
      as Hf.
    { rewrite list_find_app_r by (by apply list_find_None).
      simpl. by rewrite decide_True. }
    unfold joinPool. simpl. rewrite Hf. simpl.
    do 2 f_equal.
    rewrite insert_app_r_alt by done. by rewrite Nat.sub_diag.
  - intros i p Hf. by apply list_find_app_l.
Qed.

(** ** Further sample runs *)

Lemma st_created_reachable : reachable st_created.
Proof. unfold st_created, reachable. apply reach_step, reach_refl. Defined.

Lemma st_generated_reachable : reachable st_generated.
Proof. unfold st_generated, reachable. apply reach_step, reach_refl. Defined.

Lemma find_pool5_created :
  list_find (λ q, poolId q = "pool-5") (getPoolsFromStorage st_created)
  = Some (0, pool5_created).
Proof. vm_compute. reflexivity. Defined.

Lemma find_pool_three :
  list_find (λ q, poolId q = "pool-9")
    (getPoolsFromStorage (Some [pool_three_accepted]))
  = Some (0, pool_three_accepted).
Proof. vm_compute. reflexivity. Defined.

Lemma pool_three_accepted_ok : pool_ok pool_three_accepted.
Proof.
  split; simpl; try done; try lia.
  - apply (bool_decide_unpack _). vm_compute. exact I.
  - split; [done|]. intros [_ Hlen]. lia.
Defined.

Lemma pool_three_no_current_user :
  ¬ Exists isCurrentUser (passengers pool_three_accepted).
Proof.
  intros Hex. apply (bool_decide_pack _) in Hex. vm_compute in Hex. exact Hex.
Defined.

Lemma failed_call_stores_nothing_witness :
  success (joinPool "pool-1" st_joined).1 = false
  ∧ (joinPool "pool-1" st_joined).2 = st_joined
  ∧ (exitPool "pool-1" st_joined).2 = st_joined
  ∧ (assignDriver "pool-1" st_joined).2 = st_joined.
Proof.
  destruct (failed_call_stores_nothing "pool-1" st_joined) as (Hj & He & Ha).
  split_and!; [done|by apply Hj|by apply He|by apply Ha].
Defined.

Lemma exitPool_outcomes_witness :
  exitPool "pool-1" st_joined = (mkResult false msgNotFound, st_joined)
  ∧ exitPool "pool-5" st_created = (mkResult false msgNotAMember, st_created)
  ∧ success (exitPool "pool-5" st_joined).1 = true.
Proof.
  split_and!.
  - by apply (exitPool_outcomes "pool-1" st_joined).
  - destruct (exitPool_outcomes "pool-5" st_created) as (_ & Hnot & _).
    apply (Hnot 0 pool5_created find_pool5_created). by intros ?%Exists_nil.
  - destruct (exitPool_outcomes "pool-5" st_joined) as (_ & _ & Hiff).
    apply Hiff. exists 0, pool5_joined. split; [apply find_pool5_joined|by left].
Defined.

Lemma joinPool_outcomes_witness :
  joinPool "pool-1" st_joined = (mkResult false msgNotFound, st_joined)
  ∧ success (joinPool "pool-5" st_created).1 = true.
Proof.
  split.
  - by apply (joinPool_outcomes "pool-1" st_joined).
  - destruct (joinPool_outcomes "pool-5" st_created) as (_ & Hiff).
    apply Hiff. exists 0, pool5_created.
    split_and!; [apply find_pool5_created|vm_compute; lia|by intros ?%Exists_nil].
Defined.

Lemma joinPool_twice_witness :
  success (joinPool "pool-5" st_created).1 = true
  ∧ joinPool "pool-5" (joinPool "pool-5" st_created).2
    = (mkResult false msgAlreadyJoined, (joinPool "pool-5" st_created).2).
Proof.
  split; [done|].
  destruct (joinPool_twice "pool-5" st_created eq_refl) as (i & p & Hf & Hj).
  rewrite find_pool5_created in Hf. injection Hf as <- <-. exact Hj.
Defined.

Lemma assignDriver_twice_witness :
  success (assignDriver "pool-5" st_joined).1 = true
  ∧ assignDriver "pool-5" (assignDriver "pool-5" st_joined).2
    = (mkResult false msgAlreadyAccepted, (assignDriver "pool-5" st_joined).2).
Proof.
  split; [done|]. by apply (assignDriver_twice "pool-5" st_joined).
Defined.

Lemma join_then_exit_restores_witness :
  pool_ok pool_three_accepted
  ∧ passengers pool_three_accepted ≠ []
  ∧ success (joinPool "pool-9" (Some [pool_three_accepted])).1 = true
  ∧ status pool_full_confirmed = CONFIRMED
  ∧ (joinPool "pool-9" (Some [pool_three_accepted])).2
    = Some [pool_full_confirmed]
  ∧ exitPool "pool-9" (joinPool "pool-9" (Some [pool_three_accepted])).2
    = (mkResult true "Pool exited.", Some [pool_three_accepted]).
Proof.
  split_and!; [apply pool_three_accepted_ok|done|done|done|done|].
  by apply (join_then_exit_restores "pool-9" (Some [pool_three_accepted]) 0
              pool_three_accepted pool_three_accepted_ok find_pool_three).
Defined.

Lemma join_then_exit_deletes_empty_pool_witness :
  passengers pool5_created = [] ∧ 0 < capacity pool5_created
  ∧ exitPool "pool-5" (joinPool "pool-5" st_created).2
    = (mkResult true "Pool exited.", Some []).
Proof.
  split_and!; [done|vm_compute; lia|].
  apply (join_then_exit_deletes_empty_pool "pool-5" st_created 0
           pool5_created find_pool5_created eq_refl).
  vm_compute; lia.
Defined.

Lemma joinPool_then_getMyJoinedPool_witness :
  getMyJoinedPool st_created = None
  ∧ success (joinPool "pool-5" st_created).1 = true
  ∧ getMyJoinedPool (joinPool "pool-5" st_created).2 = Some pool5_joined.
Proof.
  split_and!; [done..|].
  destruct (joinPool_then_getMyJoinedPool "pool-5" st_created eq_refl eq_refl)
    as (i & p & Hf & Hmy & _).
  rewrite find_pool5_created in Hf. injection Hf as <- <-. exact Hmy.
Defined.

Lemma joinPool_confirms_when_full_witness :
  (∃ p',
     (joinPool "pool-9" (Some [pool_three_accepted])).2 = Some [p']
     ∧ status p' = CONFIRMED)
  ∧ (∃ p',
       (joinPool "pool-5" st_created).2 = Some [p']
       ∧ status p' = PENDING
       ∧ (joinPool "pool-5" st_created).1 = mkResult true "Joined the pool!").
Proof.
  split.
  - destruct (joinPool_confirms_when_full "pool-9" (Some [pool_three_accepted])
                0 pool_three_accepted find_pool_three)
      as (p' & Hst & _ & Hfull & _);
      [vm_compute; lia|apply pool_three_no_current_user|].
    exists p'. split; [done|]. by apply Hfull.
  - destruct (joinPool_confirms_when_full "pool-5" st_created 0 pool5_created
                find_pool5_created)
      as (p' & Hst & _ & _ & Hopen);
      [vm_compute; lia|by intros ?%Exists_nil|].
    exists p'. destruct Hopen as [Hs Hm]; [by left|]. by split_and!.
Defined.

Lemma reachable_single_rider_witness :
  reachable st_joined
  ∧ getAvailablePoolsForStudent st_joined = getPoolsFromStorage st_joined.
Proof.
  split; [apply st_joined_reachable|].
  apply (reachable_single_rider st_joined), st_joined_reachable.
Defined.

Lemma reachable_joinPool_never_full_witness :
  reachable st_created
  ∧ success (joinPool "pool-5" st_created).1 = true
  ∧ (joinPool "pool-5" st_created).1 = mkResult true "Joined the pool!".
Proof.
  split_and!; [apply st_created_reachable|done|].
  by apply (reachable_joinPool_never_full "pool-5" st_created
              st_created_reachable).
Defined.

Lemma reachable_exitPool_deletes_witness :
  reachable st_joined
  ∧ success (exitPool "pool-5" st_joined).1 = true
  ∧ exitPool "pool-5" st_joined = (mkResult true "Pool exited.", Some []).
Proof.
  split_and!; [apply st_joined_reachable|done|].
  destruct (reachable_exitPool_deletes "pool-5" st_joined st_joined_reachable
              eq_refl) as (i & p & Hf & _ & He & _).
  rewrite find_pool5_joined in Hf. injection Hf as <- <-. exact He.
Defined.

Lemma reachable_pool_fields_witness :
  reachable st_joined ∧ pool5_joined ∈ getPoolsFromStorage st_joined
  ∧ capacity pool5_joined = 4 ∧ pricePerHead pool5_joined = 50.
Proof.
  split_and!; [apply st_joined_reachable|apply pool5_in_st_joined|..];
    by destruct (reachable_pool_fields st_joined pool5_joined
                   st_joined_reachable pool5_in_st_joined) as (? & ? & _).
Defined.

Lemma reachable_one_pending_predictive_witness :
  reachable st_generated
  ∧ length (filter pendingPredictive (getPoolsFromStorage st_generated)) ≤ 1.
Proof.
  split; [apply st_generated_reachable|].
  apply (reachable_one_pending_predictive st_generated),
    st_generated_reachable.
Defined.

Lemma generate_only_on_load_day_witness :
  mkDate 0 11 ≠ mkDate 10 1
  ∧ generatePredictivePools (mkDate 10 1) (mkDate 0 11) "18:00" 7 None = None.
Proof.
  split; [done|].
  by apply (generate_only_on_load_day (mkDate 10 1) (mkDate 0 11)).
Defined.

Lemma createPool_then_joinPool_witness :
  joinPool "pool-5" (createPool tripData 5 None).2
  = (mkResult true "Joined the pool!", Some [pool5_joined])
  ∧ list_find (λ q, poolId q = "pool-5")
      (getPoolsFromStorage (createPool tripData 5 st_joined).2)
    = Some (0, pool5_joined).
Proof.
  destruct (createPool_then_joinPool tripData 5 None) as [Hfresh _].
  destruct (createPool_then_joinPool tripData 5 st_joined) as [_ Hold].
  split.
  - apply Hfresh. constructor.
  - apply Hold, find_pool5_joined.
Defined.
